(** * Admin usage dashboard: derived metrics and mock-data generators

    A shallow embedding of the computational core of the dashboard
    ([src/app/admin/usage/SpendDistributionChart.tsx] and the usage page,
    [src/app/admin/usage/page.tsx]) together with the properties of it that
    the specification states.

    The program is TypeScript: its numbers are IEEE 754 binary64 values, its
    strings are sequences of UTF-16 code units, and its bit operations go
    through ToInt32 / ToUint32.  The first part of the file models that
    run-time; the second part transcribes the functions of the repository; the
    last part states and proves the properties. *)

From Stdlib Require Import ZArith QArith Qround Qabs Qreduction Qpower Lqa Lia.
From Stdlib Require Import List Bool String Ascii Sorted Permutation.
Import ListNotations.

Local Open Scope Z_scope.

(* ================================================================== *)
(** * Part I: the JavaScript run-time                                  *)
(* ================================================================== *)

(** ** Numbers

    A JavaScript number is NaN, an infinity, or a finite binary64 value.  A
    finite value is carried as the rational it denotes; the two zeros are
    identified (they are [===]-equal, and the program never divides by a zero
    whose sign matters).  Every arithmetic operation computes the exact
    rational result and rounds it with [round], the IEEE 754
    round-to-nearest-even rounding to 53 significant bits with gradual
    underflow and overflow to infinity. *)

Inductive number : Type :=
| NaN : number
| PInf : number
| NInf : number
| Fin : Q -> number.

Module Binary64.

(** The power [2^e] for an exponent of either sign. *)
Definition pow2 (e : Z) : Q := (2 ^ e)%Q.

(** [flog2 q], for [0 < q]: the exponent [e] with [2^e <= q < 2^(e+1)]. *)
Definition flog2 (q : Q) : Z :=
  let k := Z.log2 (Qnum q) - Z.log2 (Zpos (Qden q)) in
  if Qle_bool (pow2 k) q then k else k - 1.

(** Nearest integer, ties to even. *)
Definition rne (x : Q) : Z :=
  let f := Qfloor x in
  match (x - inject_Z f ?= 1 # 2)%Q with
  | Lt => f
  | Gt => f + 1
  | Eq => if Z.even f then f else f + 1
  end.

Definition emin : Z := -1022.
Definition emax : Z := 1023.
Definition prec : Z := 53.

(** The exponent of the last place of the binade that holds [q] ([0 < q]);
    below [2^emin] the spacing stays [2^(emin - 52)] (subnormal numbers). *)
Definition ulp_exp (q : Q) : Z := Z.max (flog2 q) emin - (prec - 1).

(** Magnitude rounding: [None] is overflow. *)
Definition round_mag (q : Q) : option Q :=
  let u := pow2 (ulp_exp q) in
  let r := (inject_Z (rne (q / u)) * u)%Q in
  if Qle_bool (pow2 (emax + 1)) r then None else Some (Qred r).

Definition round (q : Q) : number :=
  match Qcompare q 0 with
  | Eq => Fin 0
  | Gt => match round_mag q with Some r => Fin r | None => PInf end
  | Lt => match round_mag (- q) with Some r => Fin (- r) | None => NInf end
  end.

End Binary64.

Import Binary64.

(** A numeric literal of the source: the double nearest to the decimal. *)
Definition lit (q : Q) : number := round q.

(** An integer that a double holds exactly (every integer literal of the
    program, and every result of a bit operation, is below [2^53]). *)
Definition int (z : Z) : number := Fin (inject_Z z).

Definition Infinity : number := PInf.

(** *** Arithmetic: [+], [-], [*], [/] *)

Definition fneg (x : number) : number :=
  match x with
  | NaN => NaN
  | PInf => NInf
  | NInf => PInf
  | Fin a => Fin (- a)
  end.

Definition fadd (x y : number) : number :=
  match x, y with
  | NaN, _ | _, NaN => NaN
  | PInf, NInf | NInf, PInf => NaN
  | PInf, _ | _, PInf => PInf
  | NInf, _ | _, NInf => NInf
  | Fin a, Fin b => round (a + b)
  end.

Definition fsub (x y : number) : number := fadd x (fneg y).

(** The sign of a number as a comparison with zero ([None] for NaN). *)
Definition sign (x : number) : option comparison :=
  match x with
  | NaN => None
  | PInf => Some Gt
  | NInf => Some Lt
  | Fin a => Some (Qcompare a 0)
  end.

Definition fmul (x y : number) : number :=
  match x, y with
  | Fin a, Fin b => round (a * b)
  | _, _ =>
      match sign x, sign y with
      | Some Gt, Some Gt | Some Lt, Some Lt => PInf
      | Some Gt, Some Lt | Some Lt, Some Gt => NInf
      | _, _ => NaN
      end
  end.

Definition fdiv (x y : number) : number :=
  match x, y with
  | NaN, _ | _, NaN => NaN
  | Fin a, Fin b =>
      match Qcompare b 0 with
      | Eq => match Qcompare a 0 with Eq => NaN | Gt => PInf | Lt => NInf end
      | _ => round (a / b)
      end
  | Fin _, _ => Fin 0
  | _, Fin b =>
      match sign x, Qcompare b 0 with
      | Some Gt, Lt | Some Lt, (Eq | Gt) => NInf
      | _, _ => PInf
      end
  | _, _ => NaN
  end.

(** *** Comparisons: [<], [>], [>=], [!==] (all false on NaN but [!==]) *)

Definition num_lt (x y : number) : bool :=
  match x, y with
  | NaN, _ | _, NaN => false
  | _, NInf | PInf, _ => false
  | NInf, _ | _, PInf => true
  | Fin a, Fin b => match Qcompare a b with Lt => true | _ => false end
  end.

Definition num_gt (x y : number) : bool := num_lt y x.

Definition num_eq (x y : number) : bool :=
  match x, y with
  | PInf, PInf | NInf, NInf => true
  | Fin a, Fin b => Qeq_bool a b
  | _, _ => false
  end.

Definition num_ge (x y : number) : bool := num_gt x y || num_eq x y.
Definition num_le (x y : number) : bool := num_lt x y || num_eq x y.
Definition num_neq (x y : number) : bool := negb (num_eq x y).

(** *** The [Math] object and [isFinite] *)

Definition Math_max (x y : number) : number :=
  match x, y with
  | NaN, _ | _, NaN => NaN
  | _, _ => if num_lt x y then y else x
  end.

Definition Math_min (x y : number) : number :=
  match x, y with
  | NaN, _ | _, NaN => NaN
  | _, _ => if num_lt y x then y else x
  end.

(** [Math.round]: the nearest integer, ties towards [+Infinity]. *)
Definition Math_round (x : number) : number :=
  match x with
  | Fin a => int (Qfloor (a + (1 # 2)))
  | _ => x
  end.

Definition Math_ceil (x : number) : number :=
  match x with
  | Fin a => int (Qceiling a)
  | _ => x
  end.

Definition Math_floor (x : number) : number :=
  match x with
  | Fin a => int (Qfloor a)
  | _ => x
  end.

Definition isFinite (x : number) : bool :=
  match x with
  | Fin _ => true
  | _ => false
  end.

(** *** Integer conversions and the bit operators

    [ToUint32] and [ToInt32] truncate towards zero and reduce modulo [2^32];
    NaN and the infinities go to [0]. *)

Definition trunc (q : Q) : Z := if Qle_bool 0 q then Qfloor q else Qceiling q.

Definition ToUint32 (x : number) : Z :=
  match x with
  | Fin a => trunc a mod 2 ^ 32
  | _ => 0
  end.

Definition ToInt32 (x : number) : Z :=
  let u := ToUint32 x in
  if u <? 2 ^ 31 then u else u - 2 ^ 32.

(** [x ^ y] *)
Definition bxor (x y : number) : number := int (Z.lxor (ToInt32 x) (ToInt32 y)).
(** [x | y] *)
Definition bor (x y : number) : number := int (Z.lor (ToInt32 x) (ToInt32 y)).
(** [x >>> n] *)
Definition ushr (x n : number) : number :=
  int (Z.shiftr (ToUint32 x) (ToUint32 n mod 32)).
(** [Math.imul(x, y)]: the low 32 bits of the product, read as signed. *)
Definition Math_imul (x y : number) : number :=
  int (ToInt32 (int (ToInt32 x * ToInt32 y))).

(** ** Strings

    A string is its sequence of UTF-16 code units. *)

Definition jsstring : Type := list Z.

(** An ASCII literal of the source. *)
Definition str (s : string) : jsstring :=
  map (fun a => Z.of_N (N_of_ascii a)) (list_ascii_of_string s).

(** [s.charCodeAt(i)] for [i] in range. *)
Definition charCode (c : Z) : number := int c.

Definition is_digit (c : Z) : bool := (48 <=? c) && (c <=? 57).

(** The mathematical value of a run of decimal digits. *)
Definition digits_value (ds : jsstring) : Z :=
  fold_left (fun acc c => 10 * acc + (c - 48)) ds 0.

(** [Number(s)] for a string [s] that is a run of decimal digits: the double
    nearest to its mathematical value. *)
Definition Number_of_digits (ds : jsstring) : number :=
  round (inject_Z (digits_value ds)).

(** The decimal digits of a natural number, most significant first. *)
Fixpoint digits_of_fuel (fuel : nat) (n : Z) (acc : jsstring) : jsstring :=
  match fuel with
  | O => acc
  | S fuel' =>
      let acc' := (48 + n mod 10) :: acc in
      if n / 10 =? 0 then acc' else digits_of_fuel fuel' (n / 10) acc'
  end.

Definition digits_of (n : Z) : jsstring :=
  digits_of_fuel (S (Z.to_nat (Z.log2 n))) n [].

(** [String(x)] inside a template literal, for the integral values the
    program formats (below [10^21], where no exponent is printed). *)
Definition ToString (x : number) : jsstring :=
  match x with
  | NaN => str "NaN"
  | PInf => str "Infinity"
  | NInf => str "-Infinity"
  | Fin a =>
      let z := trunc a in
      if z <? 0 then 45 :: digits_of (- z) else digits_of z
  end.

(** *** [toFixed] and reading the result back

    [x.toFixed(f)] prints, for [|x| < 10^21], the integer [n] for which
    [n / 10^f] is nearest to [x] (the larger [n] on a tie, computed on [|x|])
    with a decimal point inserted; otherwise it prints [String(x)].  The
    result is kept as the numeral it spells rather than as its characters. *)

Inductive numeral : Type :=
| Decimal (negative : bool) (n : Z) (f : positive)   (* [-]n / 10^f *)
| Spelled (x : number).                              (* String(x) *)

Definition toFixed (x : number) (f : positive) : numeral :=
  match x with
  | Fin a =>
      if Qle_bool (inject_Z (10 ^ 21)) (Qabs a) then Spelled x
      else
        Decimal (match Qcompare a 0 with Lt => true | _ => false end)
                (Qfloor (Qabs a * inject_Z (Zpos (10 ^ f)) + (1 # 2))) f
  | _ => Spelled x
  end.

(** [Number(s)] for a string produced by [toFixed]. *)
Definition Number_of_numeral (s : numeral) : number :=
  match s with
  | Decimal negative n f =>
      let v := round (n # (10 ^ f)) in
      if negative then fneg v else v
  | Spelled x => x
  end.

(** ** Ambient randomness: [Math.random]

    The only state the drill-down reads from outside: an unbounded supply of
    draws, consumed in order. *)

Record random_source : Type := mkSource {
  draws : nat -> number;
  cursor : nat
}.

Definition Math_random (w : random_source) : number * random_source :=
  (draws w (cursor w), mkSource (draws w) (S (cursor w))).

(** ** Dates

    A [Date] object holds a time value: milliseconds since the epoch, or NaN
    (an invalid date, [None] here).  The calendar functions are those of
    ECMAScript's "Time Values and Time Range".  The local time zone is
    ECMAScript's [LocalTZA(t, isUTC)]: the offset from UTC, in milliseconds,
    in force at the UTC time [t] ([isUTC] true) or chosen for the local time
    [t] ([isUTC] false).  In a zone with daylight saving it varies with [t];
    nothing is assumed about it here. *)

Module JSDate.

Definition Date : Type := option Z.

Definition msPerDay : Z := 86400000.

Definition Day (t : Z) : Z := t / msPerDay.
Definition TimeWithinDay (t : Z) : Z := t mod msPerDay.

Definition isLeapYear (y : Z) : bool :=
  (y mod 4 =? 0) && (negb (y mod 100 =? 0) || (y mod 400 =? 0)).

Definition DaysInYear (y : Z) : Z := if isLeapYear y then 366 else 365.

Definition DayFromYear (y : Z) : Z :=
  365 * (y - 1970) + (y - 1969) / 4 - (y - 1901) / 100 + (y - 1601) / 400.

(** The largest [y] with [DayFromYear y <= Day t]: an estimate from the mean
    length of a year, corrected by at most one. *)
Definition YearFromTime (t : Z) : Z :=
  let d := Day t in
  let y := 1970 + (d * 400) / 146097 in
  if DayFromYear (y + 1) <=? d then y + 1
  else if d <? DayFromYear y then y - 1
  else y.

Definition DayWithinYear (t : Z) : Z := Day t - DayFromYear (YearFromTime t).

Definition InLeapYear (t : Z) : Z :=
  if isLeapYear (YearFromTime t) then 1 else 0.

(** The day of the year on which month [m] (0 to 11) starts. *)
Definition monthStart (m leap : Z) : Z :=
  match m with
  | 0 => 0
  | 1 => 31
  | 2 => 59 + leap
  | 3 => 90 + leap
  | 4 => 120 + leap
  | 5 => 151 + leap
  | 6 => 181 + leap
  | 7 => 212 + leap
  | 8 => 243 + leap
  | 9 => 273 + leap
  | 10 => 304 + leap
  | _ => 334 + leap
  end.

Definition MonthFromTime (t : Z) : Z :=
  let d := DayWithinYear t in
  let leap := InLeapYear t in
  if d <? 31 then 0
  else if d <? 59 + leap then 1
  else if d <? 90 + leap then 2
  else if d <? 120 + leap then 3
  else if d <? 151 + leap then 4
  else if d <? 181 + leap then 5
  else if d <? 212 + leap then 6
  else if d <? 243 + leap then 7
  else if d <? 273 + leap then 8
  else if d <? 304 + leap then 9
  else if d <? 334 + leap then 10
  else 11.

Definition DateFromTime (t : Z) : Z :=
  DayWithinYear t + 1 - monthStart (MonthFromTime t) (InLeapYear t).

(** [MakeDay(year, month, date)]: months outside 0..11 carry into the year,
    and a day of the month past the month's end runs into the next month. *)
Definition MakeDay (year month date : Z) : Z :=
  let ym := year + month / 12 in
  let mn := month mod 12 in
  DayFromYear ym + monthStart mn (if isLeapYear ym then 1 else 0) + date - 1.

Definition MakeDate (day time : Z) : Z := day * msPerDay + time.

Definition TimeClip (t : Z) : Date :=
  if 8640000000000000 <? Z.abs t then None else Some t.

Section LocalTime.

Variable LocalTZA : Z -> bool -> Z.

Definition LocalTime (t : Z) : Z := t + LocalTZA t true.
Definition UTC (t : Z) : Z := t - LocalTZA t false.

Definition getFullYear (d : Date) : option Z :=
  option_map (fun t => YearFromTime (LocalTime t)) d.

Definition getMonth (d : Date) : option Z :=
  option_map (fun t => MonthFromTime (LocalTime t)) d.

(** [d.setFullYear(y)]; an invalid date is first reset to time 0, a NaN
    argument makes the date invalid. *)
Definition setFullYear (d : Date) (year : option Z) : Date :=
  match year with
  | None => None
  | Some y =>
      let t := match d with Some tv => LocalTime tv | None => 0 end in
      TimeClip
        (UTC (MakeDate (MakeDay y (MonthFromTime t) (DateFromTime t))
                       (TimeWithinDay t)))
  end.

(** [d.setMonth(m)]. *)
Definition setMonth (d : Date) (month : option Z) : Date :=
  match d, month with
  | Some tv, Some m =>
      let t := LocalTime tv in
      TimeClip
        (UTC (MakeDate (MakeDay (YearFromTime t) m (DateFromTime t))
                       (TimeWithinDay t)))
  | _, _ => None
  end.

End LocalTime.

(** [d.getTime()] *)
Definition getTime (d : Date) : number :=
  match d with
  | Some t => int t
  | None => NaN
  end.

(** [new Date(value)] for a number. *)
Definition Date_of_number (x : number) : Date :=
  match x with
  | Fin a => TimeClip (trunc a)
  | _ => None
  end.

End JSDate.

Import JSDate.

(* ================================================================== *)
(** * Part II: the program                                             *)
(* ================================================================== *)

(** ** [SpendDistributionChart.tsx]: bucket labels *)

Module Regex.

(** Greedy repetition of a character class with backtracking: take as many
    characters as the class admits, and give them back one at a time while
    the rest of the pattern, the continuation [k], fails.  [acc] is what the
    repetition has consumed, [s] what is left of the input. *)
Fixpoint star {R : Type} (p : Z -> bool) (acc s : jsstring)
    (k : jsstring -> jsstring -> option R) : option R :=
  match s with
  | c :: s' =>
      if p c then
        match star p (acc ++ [c]) s' k with
        | Some r => Some r
        | None => k acc s
        end
      else k acc s
  | [] => k acc s
  end.

(** [\d+], [[...]+]: one character of the class, then [star]. *)
Definition plus {R : Type} (p : Z -> bool) (s : jsstring)
    (k : jsstring -> jsstring -> option R) : option R :=
  match s with
  | c :: s' => if p c then star p [c] s' k else None
  | [] => None
  end.

(** First match of an unanchored pattern: try every start, left to right. *)
Fixpoint search {R : Type} (here : jsstring -> option R) (s : jsstring)
    : option R :=
  match here s with
  | Some r => Some r
  | None =>
      match s with
      | [] => None
      | _ :: s' => search here s'
      end
  end.

End Regex.

Definition dollar : Z := 36.
Definition hyphen : Z := 45.
Definition en_dash : Z := 8211.

(** The class [[–-]]. *)
Definition is_dash (c : Z) : bool := (c =? en_dash) || (c =? hyphen).

(** The pattern [/\$(\d+)[–-](\d+)/] at one start position; the result is
    the two capture groups. *)
Definition bucket_pattern (s : jsstring) : option (jsstring * jsstring) :=
  match s with
  | c :: s1 =>
      if c =? dollar then
        Regex.plus is_digit s1 (fun g1 s2 =>
          match s2 with
          | d :: s3 =>
              if is_dash d then
                Regex.plus is_digit s3 (fun g2 _ => Some (g1, g2))
              else None
          | [] => None
          end)
      else None
  | [] => None
  end.

Record Range : Type := mkRange { min : number; max : number }.

Definition parseBucket (label : jsstring) : option Range :=
  match Regex.search bucket_pattern label with
  | None => None
  | Some (g1, g2) => Some (mkRange (Number_of_digits g1) (Number_of_digits g2))
  end.

(** ** [SpendDistributionChart.tsx]: the labels of the histogram *)

(** The template literal [`$${start}–${end}`]. *)
Definition bucket_label (start end_ : number) : jsstring :=
  (dollar :: ToString start ++ en_dash :: ToString end_)%list.

(** [for (let start = 0; start < max; start += step)]: the loop of
    [buildBucketLabels]; [None] when [fuel] iterations did not end it (a
    step of zero never does). *)
Fixpoint buildBucketLabels_loop (fuel : nat) (start step max : number)
    (labels : list jsstring) : option (list jsstring) :=
  match fuel with
  | O => None
  | S fuel' =>
      if num_lt start max then
        let end_ := fadd start step in
        buildBucketLabels_loop fuel' (fadd start step) step max
          (labels ++ [bucket_label start end_])
      else Some labels
  end.

Definition buildBucketLabels (fuel : nat) (step max : number)
    : option (list jsstring) :=
  buildBucketLabels_loop fuel (int 0) step max [].

(** ** [SpendDistributionChart.tsx]: the users of a bucket *)

Record User : Type := mkUser { email : jsstring; spend : number }.

(** [users.sort(cmp)]: the sort is stable, and a comparator result that is
    positive puts its first argument after its second (NaN counts as 0). *)
Fixpoint sort_insert {A : Type} (cmp : A -> A -> number) (x : A) (l : list A)
    : list A :=
  match l with
  | [] => [x]
  | y :: l' =>
      if num_gt (cmp x y) (int 0) then y :: sort_insert cmp x l'
      else x :: l
  end.

Fixpoint Array_sort {A : Type} (cmp : A -> A -> number) (l : list A) : list A :=
  match l with
  | [] => []
  | x :: l' => sort_insert cmp x (Array_sort cmp l')
  end.

(** The body of [for (let i = 0; i < toShow; i++)], [fuel] iterations at
    most. *)
Fixpoint users_loop (fuel : nat) (i : Z) (toShow min max : number)
    (users : list User) (w : random_source) : list User * random_source :=
  match fuel with
  | O => (users, w)
  | S fuel' =>
      if num_lt (int i) toShow then
        let (r1, w1) := Math_random w in
        let spend :=
          Number_of_numeral (toFixed (fadd min (fmul r1 (fsub max min))) 2) in
        let (r2, w2) := Math_random w1 in
        let email :=
          (str "user"
             ++ ToString (Math_floor (fadd (fmul r2 (int 900000)) (int 100000)))
             ++ str "@example.com")%list in
        users_loop fuel' (i + 1) toShow min max (users ++ [mkUser email spend]) w2
      else (users, w)
  end.

(** [toShow] is at most 50, so 50 iterations exhaust the loop. *)
Definition loop_bound : nat := 50.

Definition generateUsersForBucket (label : jsstring) (totalUsers : number)
    (w : random_source) : list User * random_source :=
  match parseBucket label with
  | None => ([], w)
  | Some range =>
      let toShow := Math_min (int 50) (Math_max (int 1) totalUsers) in
      let (users, w') :=
        users_loop loop_bound 0 toShow (min range) (max range) [] w in
      (Array_sort (fun a b => fsub (spend b) (spend a)) users, w')
  end.

(** ** [SpendDistributionChart.tsx]: deterministic per-user statistics *)

Definition hashStringToInt (input : jsstring) : number :=
  let hash :=
    fold_left
      (fun hash c => Math_imul (bxor hash (charCode c)) (int 16777619))
      input (int 2166136261) in
  ushr hash (int 0).

(** The generator returned by [mulberry32(seed)] is a closure over [t]; a
    call of it advances [t] and returns a value. *)
Definition prng_state : Type := number.

Definition mulberry32 (seed : number) : prng_state := ushr seed (int 0).

Definition prng (t : prng_state) : number * prng_state :=
  let t := fadd t (int 1831565813) (* 0x6D2B79F5 *) in
  let r := Math_imul (bxor t (ushr t (int 15))) (bor (int 1) t) in
  let r :=
    bxor r (fadd r (Math_imul (bxor r (ushr r (int 7))) (bor (int 61) r))) in
  (fdiv (ushr (bxor r (ushr r (int 14))) (int 0)) (int 4294967296), t).

(** The value of call number [n] (from 0) of a generator in state [t]. *)
Fixpoint prng_nth (t : prng_state) (n : nat) : number :=
  match n with
  | O => fst (prng t)
  | S n' => prng_nth (snd (prng t)) n'
  end.

(** Computations that call the generator. *)
Definition Gen (A : Type) : Type := prng_state -> A * prng_state.

Definition ret {A : Type} (a : A) : Gen A := fun t => (a, t).

Definition bind {A B : Type} (c : Gen A) (k : A -> Gen B) : Gen B :=
  fun t => let (a, t') := c t in k a t'.

Notation "x <- c ;; k" := (bind c (fun x => k))
  (at level 61, c at next level, right associativity).

Record ModelShare : Type := mkShare { model : jsstring; percent : number }.

Record UserStats : Type := mkStats {
  agentRequests : number;
  linesGenerated : number;
  linesAccepted : number;
  tabCompletionsAccepted : number;
  modelUsage : list ModelShare
}.

(** [a[i].percent] and [a[i] = {...a[i], percent: p}] for [i] in range. *)
Definition percent_at (a : list ModelShare) (i : nat) : number :=
  match nth_error a i with
  | Some m => percent m
  | None => NaN
  end.

Fixpoint set_percent (a : list ModelShare) (i : nat) (p : number)
    : list ModelShare :=
  match a, i with
  | [], _ => []
  | m :: a', O => mkShare (model m) p :: a'
  | m :: a', S i' => m :: set_percent a' i' p
  end.

(** The drift correction at the end of [generateUserStats]. *)
Definition correct_drift (modelUsage : list ModelShare) : list ModelShare :=
  let totalPct :=
    fold_left (fun s m => fadd s (percent m)) modelUsage (int 0) in
  let diff := fsub (int 100) totalPct in
  if num_neq diff (int 0) then
    let idx :=
      fold_left
        (fun idx i =>
           if num_gt (percent_at modelUsage i) (percent_at modelUsage idx)
           then i else idx)
        (seq 1 (List.length modelUsage - 1)) 0%nat in
    set_percent modelUsage idx (fadd (percent_at modelUsage idx) diff)
  else modelUsage.

Definition spendFactor_of (spend : number) (bucketLabel : option jsstring)
    : number :=
  let range :=
    match bucketLabel with
    | Some (c :: l) => parseBucket (c :: l)
    | _ => None                     (* null and the empty string are falsy *)
    end in
  let maxBench := match range with Some r => max r | None => int 1000 end in
  Math_min (int 1)
    (Math_max (lit 0.05) (fdiv spend (Math_max (int 1) maxBench))).

Definition stats_of (spendFactor : number) : Gen UserStats :=
  let agentRequestsBase := fadd (int 100) (fmul spendFactor (int 4000)) in
  p <- prng ;;
  let agentRequests :=
    Math_max (int 1)
      (Math_round (fmul agentRequestsBase (fadd (lit 0.8) (fmul p (lit 0.4))))) in
  p <- prng ;;
  let linesGeneratedBase := fmul agentRequests (fadd (int 8) (fmul p (int 12))) in
  let linesGenerated :=
    Math_round
      (fmul linesGeneratedBase (fadd (lit 0.9) (fmul spendFactor (lit 0.6)))) in
  p <- prng ;;
  let acceptanceRate :=
    fadd (fadd (lit 0.45) (fmul spendFactor (lit 0.4)))
         (fmul (fsub p (lit 0.5)) (lit 0.06)) in
  let linesAccepted :=
    Math_min linesGenerated
      (Math_max (int 0) (Math_round (fmul linesGenerated acceptanceRate))) in
  p <- prng ;;
  let tabCompletionsAccepted :=
    Math_max (int 0)
      (Math_round
         (fmul (fadd (int 200) (fmul spendFactor (int 6000)))
               (fadd (lit 0.7) (fmul p (lit 0.6))))) in
  p <- prng ;;
  let wGpt5 :=
    fadd (fadd (lit 1.0) (fmul p (lit 0.6)))
         (fmul (fsub (int 1) spendFactor) (lit 1.2)) in
  p <- prng ;;
  let wSonnet :=
    fadd (fadd (lit 1.0) (fmul p (lit 0.6))) (fmul spendFactor (lit 0.8)) in
  p <- prng ;;
  let wOpus :=
    fadd (fadd (lit 1.0) (fmul p (lit 0.6))) (fmul spendFactor (lit 2.8)) in
  p <- prng ;;
  let wAuto :=
    fadd (fadd (lit 0.8) (fmul p (lit 0.6)))
         (fmul (fsub (int 1) spendFactor) (lit 0.6)) in
  let sum := fadd (fadd (fadd wGpt5 wSonnet) wOpus) wAuto in
  let toPct := fun w => Math_round (fmul (fdiv w sum) (int 100)) in
  let modelUsage :=
    [ mkShare (str "gpt-5") (toPct wGpt5);
      mkShare (str "claude-4-sonnet") (toPct wSonnet);
      mkShare (str "claude-4-opus") (toPct wOpus);
      mkShare (str "auto") (toPct wAuto) ] in
  ret (mkStats agentRequests linesGenerated linesAccepted
               tabCompletionsAccepted (correct_drift modelUsage)).

Definition generateUserStats (email : jsstring) (spend : number)
    (bucketLabel : option jsstring) : UserStats :=
  fst (stats_of (spendFactor_of spend bucketLabel)
                (mulberry32 (hashStringToInt email))).

(** ** [page.tsx]: the derived metrics of the usage page *)

Record UsageStats : Type := mkUsage {
  activeUsers : number;
  licenseCount : number;
  totalPool : number;
  remainingPool : number;
  renewalDate : Date;          (* [new Date(renewalDate)], already parsed *)
  averageDailySpend : number
}.

Definition remainingPercent (totalPool remainingPool : number) : number :=
  Math_max (int 0)
    (Math_min (int 100)
       (Math_round (fmul (fdiv remainingPool totalPool) (int 100)))).

Definition msPerDay_page : number :=
  fmul (fmul (fmul (int 24) (int 60)) (int 60)) (int 1000).

Definition daysUntilRenewal (renewsOn : Date) (now : Z) : number :=
  Math_max (int 0)
    (Math_ceil (fdiv (fsub (getTime renewsOn) (int now)) msPerDay_page)).

Definition daysUntilRunOut (remainingPool averageDailySpend : number) : number :=
  if num_gt averageDailySpend (int 0)
  then Math_ceil (fdiv remainingPool averageDailySpend)
  else Infinity.

(** [null] is [None]. *)
Definition projectedRunOutDate (now : Z) (daysUntilRunOut : number)
    : option Date :=
  if isFinite daysUntilRunOut
  then Some (Date_of_number
               (fadd (int now) (fmul daysUntilRunOut msPerDay_page)))
  else None.

Definition projectedOverageSpend (averageDailySpend daysUntilRenewal
    remainingPool : number) : number :=
  let projectedSpendUntilRenewal := fmul averageDailySpend daysUntilRenewal in
  Math_max (int 0)
    (Math_round (fsub projectedSpendUntilRenewal remainingPool)).

(** What a table cell shows: a date formatted by [Intl.DateTimeFormat], or a
    fixed text. *)
Inductive cell : Type :=
| formatDate (d : Date)
| text (s : jsstring).

Definition em_dash : jsstring := [8212].

(** [{projectedRunOutDate ? formatDate(projectedRunOutDate) : "—"}]; a
    [Date] object is truthy, [null] is not. *)
Definition runOutCell (projectedRunOutDate : option Date) : cell :=
  match projectedRunOutDate with
  | Some d => formatDate d
  | None => text em_dash
  end.

Section TrueUp.

Variable LocalTZA : Z -> bool -> Z.

Definition contractStart (renewsOn : Date) : Date :=
  let contractStart := renewsOn (* new Date(renewsOn) *) in
  setFullYear LocalTZA contractStart
    (option_map (fun y => y - 1) (getFullYear LocalTZA contractStart)).

Definition trueUpMilestones (renewsOn : Date) : list Date :=
  map (fun q =>
         let d := contractStart renewsOn (* new Date(contractStart) *) in
         setMonth LocalTZA d
           (option_map (fun m => m + q * 3) (getMonth LocalTZA d)))
      [1; 2; 3; 4].

(** [trueUpMilestones.find(d => d.getTime() >= now.getTime()) ?? renewsOn] *)
Definition nextTrueUpDate (renewsOn : Date) (now : Z) : Date :=
  match find (fun d => num_ge (getTime d) (int now)) (trueUpMilestones renewsOn) with
  | Some d => d
  | None => renewsOn
  end.

End TrueUp.

Definition projectedSeatsAdded (activeUsers licenseCount : number) : number :=
  Math_max (int 0) (fsub activeUsers licenseCount).

(** ** [ThemeToggle.tsx]: the theme switch

    The component keeps the theme in its state, mirrors it in the [dark]
    class of the document's root element, and persists it under the key
    ["theme"] of [localStorage], whose every access may throw. *)

Module ThemeToggle.

Inductive Theme : Type := light | dark.

Definition theme_name (t : Theme) : jsstring :=
  match t with
  | light => str "light"
  | dark => str "dark"
  end.

Definition jsstring_eqb (a b : jsstring) : bool :=
  if list_eq_dec Z.eq_dec a b then true else false.

Record Storage : Type := mkStorage {
  getItem_throws : bool;        (* reading raises *)
  setItem_throws : bool;        (* writing raises *)
  item : option jsstring        (* the value under the key "theme" *)
}.

Record State : Type := mkState {
  theme : Theme;                (* React state *)
  dark_class : bool;            (* documentElement.classList has "dark" *)
  storage : Storage
}.

Definition getPreferredTheme (st : Storage) : Theme :=
  if getItem_throws st then dark
  else
    match item st with
    | Some stored =>
        if jsstring_eqb stored (str "light") then light
        else if jsstring_eqb stored (str "dark") then dark
        else dark
    | None => dark
    end.

Definition is_dark (t : Theme) : bool :=
  match t with
  | dark => true
  | light => false
  end.

(** The state before the mount effect has run: [useState("light")]. *)
Definition initial (st : Storage) (root_has_dark : bool) : State :=
  mkState light root_has_dark st.

(** The effect run on mount. *)
Definition mount (s : State) : State :=
  let initial := getPreferredTheme (storage s) in
  mkState initial (is_dark initial) (storage s).

Definition setItem (st : Storage) (v : jsstring) : Storage :=
  if setItem_throws st then st
  else mkStorage (getItem_throws st) (setItem_throws st) (Some v).

Definition toggleTheme (s : State) : State :=
  let next := if is_dark (theme s) then light else dark in
  mkState next (is_dark next) (setItem (storage s) (theme_name next)).

(** [n] clicks on the button. *)
Fixpoint clicks (n : nat) (s : State) : State :=
  match n with
  | O => s
  | S n' => toggleTheme (clicks n' s)
  end.

End ThemeToggle.

(* ================================================================== *)
(** * Part III: vocabulary of the properties                           *)
(* ================================================================== *)

Section Vocabulary.

Local Open Scope Q_scope.

(** *** Representable values

    Every finite double is [m * 2^c] for an integer [m] below [2^53] in
    magnitude and an exponent [c] from [-1074] to [971]. *)

Definition representable (t : Q) : Prop :=
  exists m c : Z,
    (Z.abs m < 2 ^ 53)%Z /\ (-1074 <= c <= 971)%Z /\ t == inject_Z m * pow2 c.

(** The rounded magnitude, before the overflow test. *)
Definition rounded (q : Q) : Q :=
  inject_Z (rne (q / pow2 (ulp_exp q))) * pow2 (ulp_exp q).

(** A rational in lowest terms. *)
Definition canonical (q : Q) : Prop := Qred q = q.

End Vocabulary.

(** ** Interval reasoning on numbers

    [inside lo hi x]: [x] is finite and lies between the integers [lo] and
    [hi]; [integral lo hi x]: moreover [x] is an integer. *)

Definition inside (lo hi : Z) (x : number) : Prop :=
  exists r, x = Fin r /\ (inject_Z lo <= r /\ r <= inject_Z hi)%Q.

Definition integral (lo hi : Z) (x : number) : Prop :=
  exists z, x = int z /\ lo <= z <= hi.

Definition small (z : Z) : bool := Z.abs z <? 2 ^ 53.





(** A value that [Math.random] returns: a double from 0 up to, but not
    including, 1. *)
Definition unit_draw (x : number) : Prop :=
  exists u : Q, x = Fin u /\ representable u /\ (0 <= u /\ u < 1)%Q.




(** One date is not after another, when both are valid. *)
Definition not_after (d1 d2 : Date) : Prop :=
  forall a b, d1 = Some a -> d2 = Some b -> a <= b.

(** [d.getTime() >= now.getTime()], the test of the search for the next
    true-up. *)
Definition not_before_now (now : Z) (d : Date) : bool :=
  num_ge (getTime d) (int now).

(** The number of days of month [m] of year [y]; a month outside 0..11 is
    carried into the year, as [MakeDay] does. *)
Definition DaysInMonth (y m : Z) : Z := MakeDay y (m + 1) 1 - MakeDay y m 1.

(** The local time [t2] is [k] calendar months after the local time [t1]:
    the same time of day, on the day that [MakeDay] finds for the date of
    [t1] with its month moved by [k].  That is the same day of the month,
    [k] months on, unless that month is too short to have such a day. *)
Definition months_later (k t1 t2 : Z) : Prop :=
  TimeWithinDay t2 = TimeWithinDay t1 /\
  Day t2 = MakeDay (YearFromTime t1) (MonthFromTime t1 + k) (DateFromTime t1) /\
  (DateFromTime t1 <= DaysInMonth (YearFromTime t1) (MonthFromTime t1 + k) ->
   DateFromTime t2 = DateFromTime t1 /\
   12 * YearFromTime t2 + MonthFromTime t2
   = 12 * YearFromTime t1 + MonthFromTime t1 + k).

(** A zone with daylight saving, for examples: US Eastern time in 2026,
    five hours behind UTC, four from 8 March 07:00 UTC to 1 November 06:00
    UTC.  A local time that occurs twice is read as the earlier instant, one
    that is skipped with the offset before the change. *)
Definition eastern_2026 (t : Z) (isUTC : bool) : Z :=
  if isUTC
  then if (1772953200000 <=? t) && (t <? 1793512800000)
       then -14400000 else -18000000
  else if (1772938800000 <=? t) && (t <? 1793498400000)
       then -14400000 else -18000000.

(** ** Reference formulations used by the properties *)

(** FNV-1a over 32 bits, on unsigned integers: xor the code unit in, multiply
    by the prime, keep the low 32 bits. *)
Definition fnv1a_step (h c : Z) : Z := (Z.lxor h c * 16777619) mod 2 ^ 32.

Definition fnv1a (s : jsstring) : Z := fold_left fnv1a_step s 2166136261.

(** A string of UTF-16 code units. *)
Definition code_units (s : jsstring) : Prop := Forall (fun c => 0 <= c < 65536) s.

(** The generator with its counter wrapped to 32 bits at every call, as
    mulberry32 is usually written: the value for the counter [a]. *)
Definition mulberry32_value (a : Z) : number :=
  let t := int (a mod 2 ^ 32) in
  let r := Math_imul (bxor t (ushr t (int 15))) (bor (int 1) t) in
  let r :=
    bxor r (fadd r (Math_imul (bxor r (ushr r (int 7))) (bor (int 61) r))) in
  fdiv (ushr (bxor r (ushr r (int 14))) (int 0)) (int 4294967296).

(* ================================================================== *)
(** * Part IV: properties                                              *)
(* ================================================================== *)

(** ** Rounding to binary64 *)

Section Rounding.

Local Open Scope Q_scope.

Lemma pow2_pos e : 0 < pow2 e.
Proof. apply Qpower_0_lt. reflexivity. Qed.

Lemma pow2_add a b : pow2 (a + b) == pow2 a * pow2 b.
Proof. apply Qpower_plus. discriminate. Qed.

Lemma pow2_le a b : (a <= b)%Z -> pow2 a <= pow2 b.
Proof. intros H. apply Qpower_le_compat_l; [exact H | discriminate]. Qed.

Lemma pow2_lt a b : (a < b)%Z -> pow2 a < pow2 b.
Proof. intros H. apply Qpower_lt_compat_l; [exact H | reflexivity]. Qed.

Lemma pow2_Z e : (0 <= e)%Z -> pow2 e == inject_Z (2 ^ e).
Proof. intros H. unfold pow2. rewrite Zpower_Qpower by exact H. reflexivity. Qed.

Lemma pow2_succ e : pow2 (e + 1) == 2 * pow2 e.
Proof. rewrite pow2_add. unfold pow2 at 2. simpl. ring. Qed.

Lemma pow2_0 : pow2 0 == 1.
Proof. reflexivity. Qed.


Lemma Qmake_as_div n d : n # d == inject_Z n / inject_Z (Zpos d).
Proof. apply Qmake_Qdiv. Qed.

Lemma inject_Z_pos z : (0 < z)%Z -> 0 < inject_Z z.
Proof. intros H. unfold Qlt; simpl. lia. Qed.

Lemma flog2_spec q :
  0 < q -> pow2 (flog2 q) <= q /\ q < pow2 (flog2 q + 1).
Proof.
  intros Hq. destruct q as [n d]. unfold flog2; cbn [Qnum Qden].
  assert (Hn : (0 < n)%Z) by (unfold Qlt in Hq; simpl in Hq; lia).
  set (a := Z.log2 n). set (b := Z.log2 (Zpos d)).
  destruct (Z.log2_spec n Hn) as [Ha1 Ha2]. fold a in Ha1, Ha2.
  destruct (Z.log2_spec (Zpos d) (Pos2Z.is_pos d)) as [Hb1 Hb2]. fold b in Hb1, Hb2.
  assert (Ha0 : (0 <= a)%Z) by apply Z.log2_nonneg.
  assert (Hb0 : (0 <= b)%Z) by apply Z.log2_nonneg.
  assert (HD : 0 < inject_Z (Zpos d)) by (apply inject_Z_pos; lia).
  assert (Hqd : n # d == inject_Z n / inject_Z (Zpos d)) by apply Qmake_as_div.
  assert (HA1 : pow2 a <= inject_Z n)
    by (rewrite pow2_Z by lia; rewrite <- Zle_Qle; exact Ha1).
  assert (HA2 : inject_Z n < pow2 (a + 1)).
  { rewrite pow2_Z by lia. rewrite <- Zlt_Qlt. replace (a + 1)%Z with (Z.succ a) by lia. exact Ha2. }
  assert (HB1 : pow2 b <= inject_Z (Zpos d))
    by (rewrite pow2_Z by lia; rewrite <- Zle_Qle; exact Hb1).
  assert (HB2 : inject_Z (Zpos d) < pow2 (b + 1)).
  { rewrite pow2_Z by lia. rewrite <- Zlt_Qlt. replace (b + 1)%Z with (Z.succ b) by lia. exact Hb2. }
  (* the quotient lies strictly between 2^(a-b-1) and 2^(a-b+1) *)
  assert (Hlow : pow2 (a - b - 1) * inject_Z (Zpos d) < inject_Z n).
  { apply Qlt_le_trans with (pow2 (a - b - 1) * pow2 (b + 1)).
    - apply Qmult_lt_l; [apply pow2_pos | exact HB2].
    - rewrite <- pow2_add. replace (a - b - 1 + (b + 1))%Z with a by lia. exact HA1. }
  assert (Hhigh : inject_Z n < pow2 (a - b + 1) * inject_Z (Zpos d)).
  { apply Qlt_le_trans with (pow2 (a - b + 1) * pow2 b).
    - rewrite <- pow2_add. replace (a - b + 1 + b)%Z with (a + 1)%Z by lia. exact HA2.
    - apply Qmult_le_l; [apply pow2_pos | exact HB1]. }
  assert (Hdiv : forall c, c * inject_Z (Zpos d) <= inject_Z n <-> c <= n # d).
  { intros c. rewrite Hqd. split; intros H.
    - apply Qle_shift_div_l; assumption.
    - apply Qmult_le_r with (z := / inject_Z (Zpos d)); [apply Qinv_lt_0_compat; exact HD|].
      rewrite <- Qmult_assoc, Qmult_inv_r, Qmult_1_r by lra. exact H. }
  assert (Hdiv' : forall c, inject_Z n < c * inject_Z (Zpos d) <-> n # d < c).
  { intros c. rewrite Hqd. split; intros H.
    - apply Qlt_shift_div_r; assumption.
    - apply Qmult_lt_r with (z := / inject_Z (Zpos d)); [apply Qinv_lt_0_compat; exact HD|].
      rewrite <- Qmult_assoc, Qmult_inv_r, Qmult_1_r by lra. exact H. }
  destruct (Qle_bool (pow2 (a - b)) (n # d)) eqn:E.
  - apply Qle_bool_iff in E. split; [exact E|]. apply Hdiv'. exact Hhigh.
  - split.
    + apply Hdiv. apply Qlt_le_weak. exact Hlow.
    + replace (a - b - 1 + 1)%Z with (a - b)%Z by lia.
      apply Qnot_le_lt. intros H. apply Qle_bool_iff in H. congruence.
Qed.


(** *** Nearest integer *)

Lemma rne_cases x :
  rne x = Qfloor x \/ (rne x = (Qfloor x + 1)%Z /\ 1 # 2 <= x - inject_Z (Qfloor x)).
Proof.
  unfold rne. destruct (Qcompare_spec (x - inject_Z (Qfloor x)) (1 # 2)) as [H | H | H].
  - destruct (Z.even (Qfloor x)); [left; reflexivity | right; split; [reflexivity | lra]].
  - left; reflexivity.
  - right; split; [reflexivity | lra].
Qed.

(** Rounding to an integer does not cross an integer. *)
Lemma rne_between (L H : Z) x :
  inject_Z L <= x -> x <= inject_Z H -> (L <= rne x <= H)%Z.
Proof.
  intros HL HH.
  assert (HfL : (L <= Qfloor x)%Z)
    by (rewrite <- (Qfloor_Z L); apply Qfloor_resp_le; exact HL).
  assert (HfH : (Qfloor x <= H)%Z)
    by (rewrite <- (Qfloor_Z H); apply Qfloor_resp_le; exact HH).
  destruct (rne_cases x) as [-> | [-> Hhalf]]; [lia|].
  split; [lia|].
  assert (Hlt : inject_Z (Qfloor x) < inject_Z H) by lra.
  rewrite <- Zlt_Qlt in Hlt. lia.
Qed.

Lemma rne_lower (L : Z) x : inject_Z L <= x -> (L <= rne x)%Z.
Proof.
  intros HL.
  assert (HfL : (L <= Qfloor x)%Z)
    by (rewrite <- (Qfloor_Z L); apply Qfloor_resp_le; exact HL).
  destruct (rne_cases x) as [-> | [-> _]]; lia.
Qed.

(** The error of rounding to an integer is at most one half. *)
Lemma rne_error x : Qabs (inject_Z (rne x) - x) <= 1 # 2.
Proof.
  pose proof (Qfloor_le x) as Hf1. pose proof (Qlt_floor x) as Hf2.
  rewrite inject_Z_plus in Hf2. change (inject_Z 1) with 1 in Hf2.
  apply Qabs_Qle_condition.
  unfold rne. destruct (Qcompare_spec (x - inject_Z (Qfloor x)) (1 # 2)) as [H | H | H].
  - destruct (Z.even (Qfloor x));
      [|rewrite inject_Z_plus; change (inject_Z 1) with 1]; split; lra.
  - split; lra.
  - rewrite inject_Z_plus. change (inject_Z 1) with 1. split; lra.
Qed.


Lemma representable_opp t : representable t -> representable (- t).
Proof.
  intros (m & c & Hm & Hc & Ht). exists (- m)%Z, c. repeat split; try lia.
  rewrite Ht, inject_Z_opp. ring.
Qed.

Lemma representable_Z z : (Z.abs z < 2 ^ 53)%Z -> representable (inject_Z z).
Proof.
  intros Hz. exists z, 0%Z. repeat split; try lia. rewrite pow2_0. ring.
Qed.

Lemma representable_lt_max t : representable t -> t < pow2 (emax + 1).
Proof.
  intros (m & c & Hm & Hc & Ht). rewrite Ht.
  apply Qlt_le_trans with (pow2 53 * pow2 c).
  - apply Qmult_lt_r; [apply pow2_pos|].
    rewrite pow2_Z by lia. rewrite <- Zlt_Qlt. lia.
  - rewrite <- pow2_add. apply pow2_le. unfold emax. lia.
Qed.



Lemma ulp_exp_cases q :
  ulp_exp q = (-1074)%Z \/ ulp_exp q = (flog2 q - 52)%Z.
Proof. unfold ulp_exp, emin, prec. lia. Qed.

Lemma scale_pow2 m c e :
  (e <= c)%Z -> inject_Z m * pow2 c / pow2 e == inject_Z (m * 2 ^ (c - e)).
Proof.
  intros H. pose proof (pow2_pos e) as He.
  replace c with ((c - e) + e)%Z at 1 by lia.
  rewrite pow2_add, inject_Z_mult, (pow2_Z (c - e)) by lia.
  field. lra.
Qed.

Lemma Qdiv_le_compat_r a b c : 0 < c -> a <= b -> a / c <= b / c.
Proof.
  intros Hc H. unfold Qdiv. apply Qmult_le_compat_r; [exact H|].
  apply Qlt_le_weak, Qinv_lt_0_compat, Hc.
Qed.

Lemma Qdiv_mult_cancel a c : 0 < c -> a / c * c == a.
Proof. intros Hc. field. lra. Qed.


Lemma round_mag_unfold q :
  round_mag q = if Qle_bool (pow2 (emax + 1)) (rounded q) then None else Some (Qred (rounded q)).
Proof. reflexivity. Qed.

Lemma rounded_nonneg q : 0 < q -> 0 <= rounded q.
Proof.
  intros Hq. unfold rounded. pose proof (pow2_pos (ulp_exp q)) as Hu.
  apply Qmult_le_0_compat; [|lra].
  replace 0 with (inject_Z 0) by reflexivity. rewrite <- Zle_Qle.
  apply rne_lower. apply Qle_shift_div_l; [exact Hu | ]. change (inject_Z 0) with 0. lra.
Qed.

(** Rounding does not cross a representable value: from below ... *)
Lemma rounded_le q t : 0 < q -> representable t -> q <= t -> rounded q <= t.
Proof.
  intros Hq (m & c & Hm & Hc & Ht) Hle.
  pose proof (pow2_pos (ulp_exp q)) as Hu.
  destruct (flog2_spec q Hq) as [Hf1 Hf2].
  assert (He : (ulp_exp q <= c)%Z).
  { destruct (ulp_exp_cases q) as [E | E]; [lia|].
    destruct (Z.le_gt_cases (ulp_exp q) c) as [H | H]; [exact H | exfalso].
    assert (Hp : pow2 (c + 53) <= pow2 (flog2 q)) by (apply pow2_le; lia).
    assert (Hm' : inject_Z m < pow2 53)
      by (rewrite pow2_Z by lia; rewrite <- Zlt_Qlt; lia).
    assert (Hmc : inject_Z m * pow2 c < pow2 (c + 53)).
    { rewrite pow2_add, (Qmult_comm (pow2 c)).
      apply Qmult_lt_r; [apply pow2_pos | exact Hm']. }
    lra. }
  unfold rounded.
  assert (Hint : t / pow2 (ulp_exp q) == inject_Z (m * 2 ^ (c - ulp_exp q)))
    by (rewrite Ht; apply scale_pow2; exact He).
  assert (Hq' : q / pow2 (ulp_exp q) <= inject_Z (m * 2 ^ (c - ulp_exp q)))
    by (rewrite <- Hint; apply Qdiv_le_compat_r; assumption).
  assert (Hr : (rne (q / pow2 (ulp_exp q)) <= m * 2 ^ (c - ulp_exp q))%Z).
  { destruct (rne_between (Qfloor (q / pow2 (ulp_exp q))) (m * 2 ^ (c - ulp_exp q))
                (q / pow2 (ulp_exp q))) as [_ H]; [apply Qfloor_le | exact Hq' | exact H]. }
  rewrite Zle_Qle in Hr.
  apply Qle_trans with (inject_Z (m * 2 ^ (c - ulp_exp q)) * pow2 (ulp_exp q)).
  - apply Qmult_le_compat_r; [exact Hr | lra].
  - rewrite <- Hint. rewrite Qdiv_mult_cancel by exact Hu. apply Qle_refl.
Qed.

(** ... and from above. *)
Lemma rounded_ge q t : 0 < q -> representable t -> t <= q -> t <= rounded q.
Proof.
  intros Hq (m & c & Hm & Hc & Ht) Hle.
  pose proof (pow2_pos (ulp_exp q)) as Hu.
  destruct (flog2_spec q Hq) as [Hf1 Hf2].
  destruct (Z.le_gt_cases (ulp_exp q) c) as [He | He].
  - unfold rounded.
    assert (Hint : t / pow2 (ulp_exp q) == inject_Z (m * 2 ^ (c - ulp_exp q)))
      by (rewrite Ht; apply scale_pow2; exact He).
    assert (Hq' : inject_Z (m * 2 ^ (c - ulp_exp q)) <= q / pow2 (ulp_exp q))
      by (rewrite <- Hint; apply Qdiv_le_compat_r; assumption).
    apply rne_lower in Hq'. rewrite Zle_Qle in Hq'.
    apply Qle_trans with (inject_Z (m * 2 ^ (c - ulp_exp q)) * pow2 (ulp_exp q)).
    + rewrite <- Hint. rewrite Qdiv_mult_cancel by exact Hu. apply Qle_refl.
    + apply Qmult_le_compat_r; [exact Hq' | lra].
  - (* the value is a whole binade above the threshold *)
    assert (E : ulp_exp q = (flog2 q - 52)%Z)
      by (destruct (ulp_exp_cases q) as [E | E]; [lia | exact E]).
    assert (Hm' : inject_Z m < pow2 53)
      by (rewrite pow2_Z by lia; rewrite <- Zlt_Qlt; lia).
    assert (Hmc : inject_Z m * pow2 c < pow2 (c + 53)).
    { rewrite pow2_add, (Qmult_comm (pow2 c)).
      apply Qmult_lt_r; [apply pow2_pos | exact Hm']. }
    assert (Hp : pow2 (c + 53) <= pow2 (flog2 q)) by (apply pow2_le; lia).
    assert (H52 : inject_Z (2 ^ 52) <= q / pow2 (ulp_exp q)).
    { apply Qle_shift_div_l; [exact Hu|]. rewrite <- pow2_Z by lia.
      rewrite <- pow2_add, E. replace (52 + (flog2 q - 52))%Z with (flog2 q) by lia.
      exact Hf1. }
    apply rne_lower in H52. rewrite Zle_Qle in H52.
    unfold rounded.
    apply Qle_trans with (inject_Z (2 ^ 52) * pow2 (ulp_exp q)).
    + rewrite <- pow2_Z by lia. rewrite <- pow2_add, E.
      replace (52 + (flog2 q - 52))%Z with (flog2 q) by lia. lra.
    + apply Qmult_le_compat_r; [exact H52 | lra].
Qed.


(** *** Rounding between representable bounds *)

Lemma canonical_Qred q : canonical (Qred q).
Proof. unfold canonical. apply Qred_complete, Qred_correct. Qed.

Lemma canonical_opp q : canonical q -> canonical (- q).
Proof. unfold canonical. intros H. rewrite Qred_opp, H. reflexivity. Qed.

Lemma canonical_Z z : canonical (inject_Z z).
Proof.
  unfold canonical, inject_Z, Qred.
  pose proof (Z.ggcd_gcd z 1) as Hg.
  pose proof (Z.ggcd_correct_divisors z 1) as Hd.
  destruct (Z.ggcd z 1) as (g, (a, b)). simpl in Hg.
  rewrite Z.gcd_1_r in Hg. subst g. destruct Hd as [Ha Hb].
  assert (a = z) by lia. assert (b = 1%Z) by lia. subst a b. reflexivity.
Qed.

Lemma canonical_eq p q : canonical p -> canonical q -> p == q -> p = q.
Proof.
  unfold canonical. intros Hp Hq H. rewrite <- Hp, <- Hq. apply Qred_complete, H.
Qed.

Lemma round_mag_between q lo hi :
  0 < q -> representable hi -> lo <= 0 \/ representable lo ->
  lo <= q -> q <= hi ->
  exists r, round_mag q = Some r /\ lo <= r /\ r <= hi /\ canonical r.
Proof.
  intros Hq Hhi Hlo H1 H2.
  pose proof (rounded_le q hi Hq Hhi H2) as Hle.
  pose proof (representable_lt_max hi Hhi) as Hmax.
  assert (Hge : lo <= rounded q).
  { destruct Hlo as [Hneg | Hrep].
    - pose proof (rounded_nonneg q Hq). lra.
    - apply rounded_ge; assumption. }
  exists (Qred (rounded q)). rewrite round_mag_unfold.
  destruct (Qle_bool (pow2 (emax + 1)) (rounded q)) eqn:E.
  - apply Qle_bool_iff in E. lra.
  - split; [reflexivity|]. pose proof (Qred_correct (rounded q)) as Hred.
    split; [lra|]. split; [lra|]. apply canonical_Qred.
Qed.

Theorem round_between q lo hi :
  representable lo -> representable hi -> lo <= q -> q <= hi ->
  exists r, round q = Fin r /\ lo <= r /\ r <= hi /\ canonical r.
Proof.
  intros Hlo Hhi H1 H2. unfold round.
  destruct (Qcompare_spec q 0) as [E | E | E].
  - exists 0. repeat split; try lra.
  - assert (Hq : 0 < - q) by lra.
    destruct (round_mag_between (- q) (- hi) (- lo) Hq) as (r & -> & Ha & Hb & Hc);
      [apply representable_opp, Hlo | right; apply representable_opp, Hhi | lra | lra |].
    exists (- r). repeat split; try lra. apply canonical_opp, Hc.
  - destruct (round_mag_between q lo hi E) as (r & -> & Ha & Hb & Hc);
      [exact Hhi | right; exact Hlo | lra | lra |].
    exists r. repeat split; assumption.
Qed.

(** A representable value rounds to itself. *)
Corollary round_exact q :
  representable q -> canonical q -> round q = Fin q.
Proof.
  intros Hr Hc.
  destruct (round_between q q q Hr Hr) as (r & -> & Ha & Hb & Hcr);
    [apply Qle_refl | apply Qle_refl |].
  f_equal. apply canonical_eq; [assumption | assumption | lra].
Qed.

Corollary round_Z z : (Z.abs z < 2 ^ 53)%Z -> round (inject_Z z) = Fin (inject_Z z).
Proof.
  intros Hz. apply round_exact; [apply representable_Z, Hz | apply canonical_Z].
Qed.

End Rounding.


Lemma small_representable z : small z = true -> representable (inject_Z z).
Proof. unfold small. intros H. apply representable_Z. lia. Qed.

Section Intervals.

Local Open Scope Q_scope.

Lemma round_inside lo hi q :
  small lo = true -> small hi = true ->
  inject_Z lo <= q -> q <= inject_Z hi -> inside lo hi (round q).
Proof.
  intros Hlo Hhi H1 H2.
  destruct (round_between q (inject_Z lo) (inject_Z hi)) as (r & E & Ha & Hb & _);
    try (apply small_representable); try assumption.
  exists r. auto.
Qed.

Lemma inside_weaken lo hi lo' hi' x :
  inside lo hi x -> (lo' <= lo)%Z -> (hi <= hi')%Z -> inside lo' hi' x.
Proof.
  intros (r & -> & H1 & H2) Hl Hh. exists r. split; [reflexivity|].
  rewrite Zle_Qle in Hl, Hh. split; lra.
Qed.

Lemma integral_inside lo hi x : integral lo hi x -> inside lo hi x.
Proof.
  intros (z & -> & H1 & H2). exists (inject_Z z). split; [reflexivity|].
  rewrite <- !Zle_Qle. auto.
Qed.

Lemma int_integral z : integral z z (int z).
Proof. exists z. split; [reflexivity | lia]. Qed.

Lemma int_inside z : inside z z (int z).
Proof. apply integral_inside, int_integral. Qed.

Lemma lit_inside lo hi q :
  small lo = true -> small hi = true ->
  Qle_bool (inject_Z lo) q = true -> Qle_bool q (inject_Z hi) = true ->
  inside lo hi (lit q).
Proof.
  intros Hlo Hhi H1 H2. apply Qle_bool_iff in H1, H2.
  apply round_inside; assumption.
Qed.

Lemma fadd_inside a b c d x y :
  inside a b x -> inside c d y ->
  small (a + c) = true -> small (b + d) = true ->
  inside (a + c) (b + d) (fadd x y).
Proof.
  intros (r & -> & Hr1 & Hr2) (s & -> & Hs1 & Hs2) Hlo Hhi. simpl.
  apply round_inside; try assumption; rewrite inject_Z_plus; lra.
Qed.

Lemma fsub_inside a b c d x y :
  inside a b x -> inside c d y ->
  small (a - d) = true -> small (b - c) = true ->
  inside (a - d) (b - c) (fsub x y).
Proof.
  intros (r & -> & Hr1 & Hr2) (s & -> & Hs1 & Hs2) Hlo Hhi. simpl.
  apply round_inside; try assumption;
    unfold Z.sub; rewrite inject_Z_plus, inject_Z_opp; lra.
Qed.

Lemma fmul_inside_nonneg a b c d x y :
  inside a b x -> inside c d y ->
  (0 <= a)%Z -> (0 <= c)%Z -> small (a * c) = true -> small (b * d) = true ->
  inside (a * c) (b * d) (fmul x y).
Proof.
  intros (r & -> & Hr1 & Hr2) (s & -> & Hs1 & Hs2) Ha Hc Hlo Hhi. simpl.
  rewrite Zle_Qle in Ha, Hc. change (inject_Z 0) with 0 in Ha, Hc.
  apply round_inside; try assumption; rewrite inject_Z_mult; nra.
Qed.

Lemma fmul_inside_abs b d x y :
  inside (- b) b x -> inside (- d) d y -> small (b * d) = true ->
  inside (- (b * d)) (b * d) (fmul x y).
Proof.
  intros (r & -> & Hr1 & Hr2) (s & -> & Hs1 & Hs2) Hhi. simpl.
  rewrite inject_Z_opp in Hr1, Hs1.
  apply round_inside; try assumption.
  - unfold small in *. rewrite Z.abs_opp. exact Hhi.
  - rewrite inject_Z_opp, inject_Z_mult. nra.
  - rewrite inject_Z_mult. nra.
Qed.

Lemma fdiv_inside b c d x y :
  inside 0 b x -> inside c d y -> (1 <= c)%Z -> small b = true ->
  inside 0 b (fdiv x y).
Proof.
  intros (r & -> & Hr1 & Hr2) (s & -> & Hs1 & Hs2) Hc Hb. simpl.
  rewrite Zle_Qle in Hc. change (inject_Z 1) with 1 in Hc.
  change (inject_Z 0) with 0 in Hr1.
  assert (Hs : 0 < s) by lra.
  destruct (Qcompare_spec s 0) as [E | E | E]; try lra.
  assert (Hq : 0 <= r / s) by (apply Qle_shift_div_l; lra).
  assert (Hq' : r / s <= r).
  { apply Qle_shift_div_r; [exact Hs|]. nra. }
  apply round_inside; try assumption; try reflexivity.
  lra.
Qed.

Lemma Math_round_integral a b x :
  inside a b x -> integral a b (Math_round x).
Proof.
  intros (r & -> & H1 & H2). simpl. exists (Qfloor (r + (1 # 2))).
  split; [reflexivity|]. split.
  - rewrite <- (Qfloor_Z a). apply Qfloor_resp_le. lra.
  - assert (H : (Qfloor (r + (1 # 2)) < b + 1)%Z).
    { rewrite Zlt_Qlt, inject_Z_plus. change (inject_Z 1) with 1.
      pose proof (Qfloor_le (r + (1 # 2))). lra. }
    lia.
Qed.

End Intervals.

(** Operations on integers that a double holds are exact. *)

Lemma fadd_int a b : small (a + b) = true -> fadd (int a) (int b) = int (a + b).
Proof.
  intros H. unfold int, fadd. rewrite <- inject_Z_plus. apply round_Z.
  unfold small in H. lia.
Qed.

Lemma fsub_int a b : small (a - b) = true -> fsub (int a) (int b) = int (a - b).
Proof.
  intros H. unfold int, fsub, fadd, fneg. rewrite <- inject_Z_opp, <- inject_Z_plus.
  apply round_Z. unfold small in H. lia.
Qed.

Lemma Qcompare_int a b : Qcompare (inject_Z a) (inject_Z b) = Z.compare a b.
Proof. unfold Qcompare. simpl. rewrite !Z.mul_1_r. reflexivity. Qed.

Lemma num_lt_int a b : num_lt (int a) (int b) = (a <? b).
Proof. unfold num_lt, int. rewrite Qcompare_int. unfold Z.ltb. reflexivity. Qed.

Lemma num_eq_int a b : num_eq (int a) (int b) = (a =? b).
Proof.
  unfold num_eq, int, Qeq_bool. simpl. rewrite !Z.mul_1_r. reflexivity.
Qed.

Lemma Math_max_int a b : Math_max (int a) (int b) = int (Z.max a b).
Proof.
  change (Math_max (int a) (int b))
    with (if num_lt (int a) (int b) then int b else int a).
  rewrite num_lt_int. destruct (Z.ltb_spec a b); f_equal; lia.
Qed.

Lemma Math_min_int a b : Math_min (int a) (int b) = int (Z.min a b).
Proof.
  change (Math_min (int a) (int b))
    with (if num_lt (int b) (int a) then int b else int a).
  rewrite num_lt_int. destruct (Z.ltb_spec b a); f_equal; lia.
Qed.

(** ** The generator and the hash *)

Lemma trunc_Z z : trunc (inject_Z z) = z.
Proof.
  unfold trunc. destruct (Qle_bool 0 (inject_Z z)); [apply Qfloor_Z | apply Qceiling_Z].
Qed.

Lemma ToUint32_range x : 0 <= ToUint32 x < 2 ^ 32.
Proof.
  destruct x; simpl; try lia. apply Z.mod_pos_bound. lia.
Qed.

Lemma ToUint32_int z : ToUint32 (int z) = z mod 2 ^ 32.
Proof. unfold ToUint32, int. rewrite trunc_Z. reflexivity. Qed.

Lemma ushr_0 x : ushr x (int 0) = int (ToUint32 x).
Proof. unfold ushr. rewrite ToUint32_int. reflexivity. Qed.

Lemma fdiv_pos a b : (0 < b)%Q -> fdiv (Fin a) (Fin b) = round (a / b).
Proof.
  intros Hb. unfold fdiv. destruct (Qcompare_spec b 0) as [E | E | E]; try reflexivity.
  rewrite E in Hb. discriminate Hb.
Qed.

(** A value of the generator is [n / 2^32] for a 32-bit [n]. *)
Lemma prng_value t :
  exists (n : Z) (v : Q),
    fst (prng t) = Fin v /\ 0 <= n < 4294967296 /\
    (v == inject_Z n / inject_Z 4294967296)%Q.
Proof.
  unfold prng. cbv zeta. cbn [fst]. rewrite ushr_0.
  match goal with |- context [ToUint32 ?x] => set (u := ToUint32 x);
    pose proof (ToUint32_range x) as Hu; fold u in Hu end.
  change (2 ^ 32) with 4294967296 in Hu.
  assert (Hrep : representable (inject_Z u / inject_Z 4294967296)).
  { exists u, (-32). split; [lia|]. split; [lia|]. unfold pow2. simpl. field. }
  destruct (round_between _ _ _ Hrep Hrep (Qle_refl _) (Qle_refl _))
    as (r & Hr & H1 & H2 & _).
  exists u, r. split; [|split; [exact Hu | lra]].
  unfold int. rewrite fdiv_pos by reflexivity. exact Hr.
Qed.

Lemma prng_range t :
  exists v, fst (prng t) = Fin v /\ (0 <= v /\ v < 1)%Q.
Proof.
  destruct (prng_value t) as (n & v & E & Hn & Hv). exists v. split; [exact E|].
  rewrite Hv. split.
  - apply Qle_shift_div_l; [reflexivity|]. rewrite Qmult_0_l.
    change 0%Q with (inject_Z 0). rewrite <- Zle_Qle. lia.
  - apply Qlt_shift_div_r; [reflexivity|]. rewrite Qmult_1_l.
    rewrite <- Zlt_Qlt. lia.
Qed.

Lemma prng_inside t : inside 0 1 (fst (prng t)).
Proof.
  destruct (prng_range t) as (v & E & H0 & H1). exists v. split; [exact E|].
  change (inject_Z 0) with 0%Q. change (inject_Z 1) with 1%Q. split; lra.
Qed.

Lemma prng_nth_range t n :
  exists v, prng_nth t n = Fin v /\ (0 <= v /\ v < 1)%Q.
Proof.
  revert t. induction n as [|n IH]; intros t; cbn [prng_nth].
  - apply prng_range.
  - apply IH.
Qed.

(** ** Bounds of the per-user statistics *)

Lemma inside_symmetric lo hi x :
  inside lo hi x -> inside (- Z.max (- lo) hi) (Z.max (- lo) hi) x.
Proof. intros H. eapply inside_weaken; [exact H | lia | lia]. Qed.

Lemma integral_weaken lo hi lo' hi' x :
  integral lo hi x -> lo' <= lo -> hi <= hi' -> integral lo' hi' x.
Proof. intros (z & -> & H) Hl Hh. exists z. split; [reflexivity | lia]. Qed.

Lemma Math_max_integral k a b x :
  integral a b x -> integral (Z.max k a) (Z.max k b) (Math_max (int k) x).
Proof.
  intros (z & -> & H). rewrite Math_max_int. exists (Z.max k z).
  split; [reflexivity | lia].
Qed.

Ltac side_small := vm_compute; reflexivity.
Ltac side_le := first [lia | vm_compute; intro; discriminate].

Ltac interval :=
  first
    [ eassumption
    | lazymatch goal with
      | |- inside _ _ (fadd _ _) =>
          eapply fadd_inside; [interval | interval | side_small | side_small]
      | |- inside _ _ (fsub _ _) =>
          eapply fsub_inside; [interval | interval | side_small | side_small]
      | |- inside _ _ (fmul _ _) =>
          first
            [ eapply fmul_inside_nonneg;
              [interval | interval | side_le | side_le | side_small | side_small]
            | eapply fmul_inside_abs;
              [apply inside_symmetric; interval
              | apply inside_symmetric; interval
              | side_small] ]
      | |- inside _ _ (fdiv _ _) =>
          eapply fdiv_inside;
          [ eapply inside_weaken; [interval | side_le | apply Z.le_refl]
          | interval | side_le | side_small ]
      | |- inside _ _ (Math_round _) =>
          apply integral_inside, Math_round_integral; interval
      | |- inside _ _ (Math_max (int _) _) =>
          apply integral_inside, Math_max_integral; integrality
      | |- inside _ _ (int _) => apply int_inside
      | |- inside _ _ (lit ?q) =>
          let lo := eval vm_compute in (Qfloor q) in
          let hi := eval vm_compute in (Qceiling q) in
          apply (lit_inside lo hi); vm_compute; reflexivity
      end ]
with integrality :=
  first
    [ eassumption
    | lazymatch goal with
      | |- integral _ _ (Math_round _) => apply Math_round_integral; interval
      | |- integral _ _ (Math_max (int _) _) => apply Math_max_integral; integrality
      | |- integral _ _ (int _) => apply int_integral
      end ].

(** [bounded lo hi x]: the interval of [x] found by the tactics lies within
    the given constants. *)
Ltac bounded_inside := eapply inside_weaken; [interval | side_le | side_le].
Ltac bounded_integral := eapply integral_weaken; [integrality | side_le | side_le].

Lemma small_bound z : Z.abs z < 9007199254740992 -> small z = true.
Proof. intros H. unfold small. apply Z.ltb_lt. exact H. Qed.

(** The drift correction leaves four integral percentages that sum to 100. *)
Lemma correct_drift_total n1 n2 n3 n4 z1 z2 z3 z4 :
  0 <= z1 <= 1000000 -> 0 <= z2 <= 1000000 ->
  0 <= z3 <= 1000000 -> 0 <= z4 <= 1000000 ->
  exists p1 p2 p3 p4,
    correct_drift [mkShare n1 (int z1); mkShare n2 (int z2);
                   mkShare n3 (int z3); mkShare n4 (int z4)]
    = [mkShare n1 (int p1); mkShare n2 (int p2);
       mkShare n3 (int p3); mkShare n4 (int p4)]
    /\ p1 + p2 + p3 + p4 = 100.
Proof.
  intros H1 H2 H3 H4. unfold correct_drift.
  cbn [fold_left percent List.length seq Nat.sub].
  rewrite !fadd_int by (apply small_bound; lia).
  rewrite fsub_int by (apply small_bound; lia).
  unfold num_neq. rewrite num_eq_int.
  destruct (Z.eqb_spec (100 - (0 + z1 + z2 + z3 + z4)) 0) as [E | E]; cbn [negb].
  - exists z1, z2, z3, z4. split; [reflexivity | lia].
  - cbn [fold_left percent_at nth_error percent]. unfold num_gt.
    rewrite !num_lt_int.
    destruct (z1 <? z2); cbn [percent_at nth_error percent];
      rewrite ?num_lt_int;
      destruct (_ <? z3); cbn [percent_at nth_error percent];
      rewrite ?num_lt_int;
      destruct (_ <? z4); cbn [percent_at nth_error percent set_percent model];
      rewrite fadd_int by (apply small_bound; lia);
      do 4 eexists; (split; [reflexivity | lia]).
Qed.

Lemma round_not_NaN q : round q <> NaN.
Proof.
  unfold round. destruct (q ?= 0)%Q; [discriminate | |].
  - destruct (round_mag (- q)); discriminate.
  - destruct (round_mag q); discriminate.
Qed.

Lemma Math_max_1 y :
  y <> NaN ->
  Math_max (int 1) y = PInf \/
  exists b, Math_max (int 1) y = Fin b /\ (1 <= b)%Q.
Proof.
  intros Hy. destruct y as [| | |v]; [contradiction | left; reflexivity | |].
  - right. exists 1%Q. split; [reflexivity | apply Qle_refl].
  - right. unfold Math_max, int, num_lt.
    destruct (Qcompare_spec (inject_Z 1) v) as [E | E | E].
    + exists (inject_Z 1). split; [reflexivity | apply Qle_refl].
    + exists v. split; [reflexivity | apply Qlt_le_weak, E].
    + exists (inject_Z 1). split; [reflexivity | apply Qle_refl].
Qed.

Lemma fdiv_Fin_not_NaN a y :
  y = PInf \/ (exists b, y = Fin b /\ (1 <= b)%Q) -> fdiv (Fin a) y <> NaN.
Proof.
  intros [-> | (b & -> & Hb)]; [discriminate|].
  rewrite fdiv_pos by lra. apply round_not_NaN.
Qed.

(** The clamp of the spend factor: any number but NaN lands in [0.05, 1]. *)
Lemma clamp_inside x :
  x <> NaN -> inside 0 1 (Math_min (int 1) (Math_max (lit 0.05) x)).
Proof.
  intros Hx.
  assert (Hc : inside 0 1 (lit 0.05)) by interval.
  destruct Hc as (c & -> & Hc0 & Hc1). unfold inside.
  change (inject_Z 0) with 0%Q in *. change (inject_Z 1) with 1%Q in *.
  destruct x as [| | |v]; [contradiction | | |].
  - exists 1%Q. split; [reflexivity | split; lra].
  - unfold Math_max, Math_min, int, num_lt.
    destruct (Qcompare_spec c (inject_Z 1)) as [E | E | E];
      change (inject_Z 1) with 1%Q in *;
      eexists; (split; [reflexivity | split; lra]).
  - unfold Math_max, num_lt.
    destruct (Qcompare_spec c v) as [E | E | E];
      unfold Math_min, int, num_lt;
      match goal with |- context [Qcompare ?a (inject_Z 1)] =>
        destruct (Qcompare_spec a (inject_Z 1)) as [F | F | F] end;
      change (inject_Z 1) with 1%Q in *;
      eexists; (split; [reflexivity | split; lra]).
Qed.

Lemma parseBucket_max_not_NaN label r : parseBucket label = Some r -> max r <> NaN.
Proof.
  unfold parseBucket. destruct (Regex.search bucket_pattern label) as [[g1 g2]|];
    [|discriminate].
  intros [= <-]. cbn [max]. apply round_not_NaN.
Qed.

Lemma spendFactor_inside a label : inside 0 1 (spendFactor_of (Fin a) label).
Proof.
  unfold spendFactor_of. apply clamp_inside, fdiv_Fin_not_NaN, Math_max_1.
  destruct label as [[|c l]|]; try discriminate.
  destruct (parseBucket (c :: l)) as [r|] eqn:E; [|discriminate].
  eapply parseBucket_max_not_NaN, E.
Qed.

(** One call of the generator inside a [Gen] computation. *)
Ltac draw :=
  match goal with
  | |- context [prng ?t] =>
      let p := fresh "p" in
      let t' := fresh "t" in
      let Hp := fresh "Hp" in
      pose proof (prng_inside t) as Hp;
      destruct (prng t) as [p t']; cbn [fst] in Hp; cbv beta iota
  end.

Lemma stats_lines sf t :
  inside 0 1 sf ->
  exists g acc,
    linesGenerated (fst (stats_of sf t)) = int g /\
    linesAccepted (fst (stats_of sf t)) = int acc /\ 0 <= acc <= g.
Proof.
  intros Hsf. unfold stats_of, bind, ret. cbv zeta.
  do 8 draw. cbn [fst linesGenerated linesAccepted].
  match goal with |- exists g acc, ?LG = int g /\ _ =>
    assert (HLG : integral 0 1000000 LG) by bounded_integral;
    destruct HLG as (g & Eg & Hg); rewrite Eg
  end.
  assert (Hg' : inside 0 1000000 (int g)) by (apply integral_inside; exists g; auto).
  match goal with |- context [Math_round ?e] =>
    assert (HR : integral (-10000000) 10000000 (Math_round e)) by bounded_integral;
    destruct HR as (z & Ez & Hz); rewrite Ez
  end.
  rewrite Math_max_int, Math_min_int.
  exists g, (Z.min g (Z.max 0 z)). split; [reflexivity|]. split; [reflexivity | lia].
Qed.

Lemma stats_modelUsage sf t :
  inside 0 1 sf ->
  exists p1 p2 p3 p4,
    modelUsage (fst (stats_of sf t))
    = [mkShare (str "gpt-5") (int p1); mkShare (str "claude-4-sonnet") (int p2);
       mkShare (str "claude-4-opus") (int p3); mkShare (str "auto") (int p4)]
    /\ p1 + p2 + p3 + p4 = 100.
Proof.
  intros Hsf. unfold stats_of, bind, ret. cbv zeta.
  do 8 draw. cbn [fst modelUsage].
  do 4 (match goal with |- context [Math_round ?e] =>
    let H := fresh "HR" in let z := fresh "z" in let Ez := fresh "Ez" in
    assert (H : integral 0 1000000 (Math_round e)) by bounded_integral;
    destruct H as (z & Ez & H); rewrite Ez; clear Ez
  end).
  apply correct_drift_total; assumption.
Qed.

(** ** The claims about [generateUserStats] *)

(** C1: for every identity, finite spend amount and bucket label (also a
    missing or malformed one), [modelUsage] has exactly four entries, their
    percentages are integers, and the integers sum to exactly 100. *)
Theorem generateUserStats_modelUsage_total :
  forall (email : jsstring) (spend : Q) (bucketLabel : option jsstring),
  exists p1 p2 p3 p4 : Z,
    modelUsage (generateUserStats email (Fin spend) bucketLabel)
    = [mkShare (str "gpt-5") (int p1); mkShare (str "claude-4-sonnet") (int p2);
       mkShare (str "claude-4-opus") (int p3); mkShare (str "auto") (int p4)]
    /\ p1 + p2 + p3 + p4 = 100.
Proof.
  intros email spend bucketLabel. unfold generateUserStats.
  apply stats_modelUsage, spendFactor_inside.
Qed.

(** C7: for every identity, finite spend amount and bucket label, the two
    line counts are integers with [0 <= linesAccepted <= linesGenerated]. *)
Theorem generateUserStats_lines_bounded :
  forall (email : jsstring) (spend : Q) (bucketLabel : option jsstring),
  exists generated accepted : Z,
    linesGenerated (generateUserStats email (Fin spend) bucketLabel) = int generated /\
    linesAccepted (generateUserStats email (Fin spend) bucketLabel) = int accepted /\
    0 <= accepted <= generated.
Proof.
  intros email spend bucketLabel. unfold generateUserStats.
  apply stats_lines, spendFactor_inside.
Qed.

(** C2: the statistics depend on the identity only through its hash: two
    identities with the same hash (in particular the same identity twice)
    get the same statistics, field by field, for the same spend and
    bucket label. *)
Theorem generateUserStats_determined_by_hash :
  forall (email email' : jsstring) (spend : number) (bucketLabel : option jsstring),
    hashStringToInt email = hashStringToInt email' ->
    generateUserStats email spend bucketLabel
    = generateUserStats email' spend bucketLabel.
Proof.
  intros email email' spend bucketLabel Hhash.
  unfold generateUserStats. rewrite Hhash. reflexivity.
Qed.

Lemma generateUserStats_determined_by_hash_witness :
  str "user449599@example.com" <> str "user612382@example.com" /\
  generateUserStats (str "user449599@example.com") (lit 33.25) (Some (str "$20-40"))
  = generateUserStats (str "user612382@example.com") (lit 33.25) (Some (str "$20-40")).
Proof.
  split.
  - vm_compute. intros H. discriminate H.
  - apply (generateUserStats_determined_by_hash
             (str "user449599@example.com") (str "user612382@example.com")).
    vm_compute. reflexivity.
Defined.

(** C9: every value of the generator, at every position of its stream and
    for every seed, lies in [0, 1); and the stream is a function of the seed
    read as an unsigned 32-bit integer, so equal seeds give equal streams. *)
Theorem mulberry32_stream :
  forall (seed seed' : number) (n : nat),
    ToUint32 seed = ToUint32 seed' ->
    prng_nth (mulberry32 seed) n = prng_nth (mulberry32 seed') n /\
    exists v, prng_nth (mulberry32 seed) n = Fin v /\ (0 <= v /\ v < 1)%Q.
Proof.
  intros seed seed' n Hseed. split.
  - unfold mulberry32. rewrite !ushr_0, Hseed. reflexivity.
  - apply prng_nth_range.
Qed.

Lemma mulberry32_stream_witness :
  prng_nth (mulberry32 (int 5)) 3 = prng_nth (mulberry32 (int (5 + 2 ^ 32))) 3 /\
  exists v, prng_nth (mulberry32 (int 5)) 3 = Fin v /\ (0 <= v /\ v < 1)%Q.
Proof.
  apply (mulberry32_stream (int 5) (int (5 + 2 ^ 32)) 3). vm_compute. reflexivity.
Defined.

(** ** Bucket labels *)

Lemma star_greedy {R : Type} (p : Z -> bool) (s rest acc : jsstring)
    (k : jsstring -> jsstring -> option R) (v : R) :
  forallb p s = true ->
  match rest with c :: _ => p c = false | [] => True end ->
  k (acc ++ s)%list rest = Some v ->
  Regex.star p acc (s ++ rest)%list k = Some v.
Proof.
  revert acc. induction s as [|c s IH]; intros acc Hs Hrest Hk.
  - rewrite app_nil_r in Hk. cbn [app]. destruct rest as [|c r]; cbn [Regex.star].
    + exact Hk.
    + rewrite Hrest. exact Hk.
  - cbn [forallb] in Hs. apply andb_prop in Hs. destruct Hs as [Hc Hs].
    cbn [app Regex.star]. rewrite Hc.
    rewrite (IH (acc ++ [c])%list Hs Hrest); [reflexivity|].
    rewrite <- app_assoc. exact Hk.
Qed.

Lemma plus_greedy {R : Type} (p : Z -> bool) (s rest : jsstring)
    (k : jsstring -> jsstring -> option R) (v : R) :
  s <> [] -> forallb p s = true ->
  match rest with c :: _ => p c = false | [] => True end ->
  k s rest = Some v ->
  Regex.plus p (s ++ rest)%list k = Some v.
Proof.
  intros Hne Hs Hrest Hk. destruct s as [|c s]; [contradiction|].
  cbn [forallb] in Hs. apply andb_prop in Hs. destruct Hs as [Hc Hs].
  cbn [app Regex.plus]. rewrite Hc. apply star_greedy; assumption.
Qed.

Lemma dash_not_digit d : is_dash d = true -> is_digit d = false.
Proof.
  unfold is_dash, is_digit, en_dash, hyphen. intros H.
  apply orb_prop in H. destruct H as [H | H]; apply Z.eqb_eq in H; subst; reflexivity.
Qed.

Lemma parseBucket_wellformed (a b : jsstring) (d : Z) :
  a <> [] -> b <> [] -> forallb is_digit a = true -> forallb is_digit b = true ->
  is_dash d = true ->
  parseBucket (dollar :: a ++ d :: b)
  = Some (mkRange (Number_of_digits a) (Number_of_digits b)).
Proof.
  intros Ha Hb Hda Hdb Hd. unfold parseBucket.
  assert (E : Regex.search bucket_pattern (dollar :: a ++ d :: b) = Some (a, b)).
  { cbn [Regex.search]. unfold bucket_pattern at 1. rewrite Z.eqb_refl.
    rewrite (plus_greedy is_digit a (d :: b) _ (a, b)); [reflexivity | assumption ..| |].
    - apply dash_not_digit, Hd.
    - rewrite Hd.
      pose proof (plus_greedy is_digit b [] (fun g2 _ => Some (a, g2)) (a, b)
                    Hb Hdb I eq_refl) as Hplus.
      rewrite app_nil_r in Hplus. exact Hplus. }
  rewrite E. reflexivity.
Qed.

(** C6: the label "$20–40" parses to the range 20..40, with a hyphen or an
    en dash between any two runs of digits; "20 to 40" gives no range; and
    a label that gives no range yields an empty list of users (a value, not
    an exception) and draws no random number. *)
Theorem parseBucket_and_empty_drilldown :
  parseBucket (str "$20" ++ [en_dash] ++ str "40") = Some (mkRange (int 20) (int 40)) /\
  parseBucket (str "$20-40") = Some (mkRange (int 20) (int 40)) /\
  (forall (a b : jsstring) (d : Z),
      a <> [] -> b <> [] ->
      forallb is_digit a = true -> forallb is_digit b = true ->
      d = hyphen \/ d = en_dash ->
      parseBucket (dollar :: a ++ d :: b)
      = Some (mkRange (Number_of_digits a) (Number_of_digits b))) /\
  parseBucket (str "20 to 40") = None /\
  (forall (label : jsstring) (totalUsers : number) (w : random_source),
      parseBucket label = None ->
      generateUsersForBucket label totalUsers w = ([], w)).
Proof.
  split; [vm_compute; reflexivity|].
  split; [vm_compute; reflexivity|].
  split.
  { intros a b d Ha Hb Hda Hdb Hd. apply parseBucket_wellformed; try assumption.
    destruct Hd as [-> | ->]; reflexivity. }
  split; [vm_compute; reflexivity|].
  intros label totalUsers w H. unfold generateUsersForBucket. rewrite H. reflexivity.
Qed.

Lemma parseBucket_and_empty_drilldown_witness :
  parseBucket (dollar :: str "980" ++ en_dash :: str "1000")
  = Some (mkRange (Number_of_digits (str "980")) (Number_of_digits (str "1000"))) /\
  generateUsersForBucket (str "20 to 40") (int 7) (mkSource (fun _ => int 0) 0)
  = ([], mkSource (fun _ => int 0) 0).
Proof.
  pose proof parseBucket_and_empty_drilldown as (_ & _ & Hparse & _ & Hempty).
  split.
  - apply (Hparse (str "980") (str "1000") en_dash);
      [discriminate | discriminate | reflexivity | reflexivity | right; reflexivity].
  - apply (Hempty (str "20 to 40") (int 7)). vm_compute. reflexivity.
Defined.

(** ** What a label can parse to *)

Lemma plus_captures {R : Type} (p : Z -> bool) (Q : R -> Prop) s
    (k : jsstring -> jsstring -> option R) r :
  (forall acc' s' r', acc' <> [] -> forallb p acc' = true -> k acc' s' = Some r' -> Q r') ->
  Regex.plus p s k = Some r -> Q r.
Proof.
  intros Hk. unfold Regex.plus. destruct s as [|c s]; [discriminate|].
  destruct (p c) eqn:Hc; [|discriminate].
  assert (G : forall acc k' r0, acc <> [] -> forallb p acc = true ->
            (forall a s' r', a <> [] -> forallb p a = true -> k' a s' = Some r' -> Q r') ->
            forall s0, Regex.star p acc s0 k' = Some r0 -> Q r0).
  { intros acc k' r0 Hne Hacc Hk' s0. revert acc Hne Hacc.
    induction s0 as [|d s0 IH]; intros acc Hne Hacc; cbn [Regex.star].
    - apply Hk'; assumption.
    - destruct (p d) eqn:Hd; [|apply Hk'; assumption].
      destruct (Regex.star p (acc ++ [d]) s0 k') as [r'|] eqn:E.
      + intros [= <-]. eapply IH; [| | exact E].
        * intros H. apply app_eq_nil in H. destruct H as [_ H]. discriminate H.
        * rewrite forallb_app, Hacc. cbn [forallb]. rewrite Hd. reflexivity.
      + apply Hk'; assumption. }
  apply G; [discriminate | cbn [forallb]; rewrite Hc; reflexivity | exact Hk].
Qed.

Lemma search_found {R : Type} (here : jsstring -> option R) (Q : R -> Prop) s r :
  (forall s' r', here s' = Some r' -> Q r') ->
  Regex.search here s = Some r -> Q r.
Proof.
  intros Hhere. induction s as [|c s IH]; cbn [Regex.search].
  - destruct (here []) eqn:E; [|discriminate]. intros [= <-]. eapply Hhere, E.
  - destruct (here (c :: s)) eqn:E; [intros [= <-]; eapply Hhere, E | exact IH].
Qed.

Lemma digits_value_nonneg ds : forallb is_digit ds = true -> 0 <= digits_value ds.
Proof.
  unfold digits_value.
  assert (G : forall acc, 0 <= acc -> forallb is_digit ds = true ->
            0 <= fold_left (fun acc c => 10 * acc + (c - 48)) ds acc).
  { induction ds as [|c ds IH]; intros acc Hacc Hds; cbn [fold_left]; [exact Hacc|].
    cbn [forallb] in Hds. apply andb_prop in Hds. destruct Hds as [Hc Hds].
    apply IH; [|exact Hds]. unfold is_digit in Hc. apply andb_prop in Hc.
    destruct Hc as [Hc1 Hc2]. apply Z.leb_le in Hc1. lia. }
  apply G. lia.
Qed.

(** A range that [parseBucket] returns was read from two non-empty runs of
    decimal digits. *)
Lemma parseBucket_digits label range :
  parseBucket label = Some range ->
  exists g1 g2 : jsstring,
    g1 <> [] /\ g2 <> [] /\
    forallb is_digit g1 = true /\ forallb is_digit g2 = true /\
    range = mkRange (Number_of_digits g1) (Number_of_digits g2).
Proof.
  unfold parseBucket.
  destruct (Regex.search bucket_pattern label) as [[g1 g2]|] eqn:E; [|discriminate].
  intros [= <-].
  assert (H : g1 <> [] /\ g2 <> [] /\
              forallb is_digit g1 = true /\ forallb is_digit g2 = true).
  { set (P := fun r : jsstring * jsstring =>
                fst r <> [] /\ snd r <> [] /\
                forallb is_digit (fst r) = true /\ forallb is_digit (snd r) = true).
    change (P (g1, g2)). revert E. apply (search_found bucket_pattern P).
    intros s' r'. unfold bucket_pattern. destruct s' as [|c s1]; [discriminate|].
    destruct (c =? dollar); [|discriminate].
    apply (plus_captures is_digit P). intros a1 s2 r1 Hne1 Hd1.
    destruct s2 as [|d s3]; [discriminate|].
    destruct (is_dash d); [|discriminate].
    apply (plus_captures is_digit P). intros a2 s4 r2 Hne2 Hd2 [= <-].
    unfold P. cbn [fst snd]. auto. }
  destruct H as (Hne1 & Hne2 & Hd1 & Hd2).
  exists g1, g2. auto.
Qed.

(** ** The users of a bucket *)

Lemma sort_insert_length {A : Type} (cmp : A -> A -> number) x l :
  List.length (sort_insert cmp x l) = S (List.length l).
Proof.
  induction l as [|y l IH]; cbn [sort_insert List.length]; [reflexivity|].
  destruct (num_gt (cmp x y) (int 0)); cbn [List.length]; [rewrite IH|]; reflexivity.
Qed.

Lemma Array_sort_length {A : Type} (cmp : A -> A -> number) l :
  List.length (Array_sort cmp l) = List.length l.
Proof.
  induction l as [|x l IH]; cbn [Array_sort List.length]; [reflexivity|].
  rewrite sort_insert_length, IH. reflexivity.
Qed.

(** The loop runs once for each integer from [i] below [toShow], as long as
    the fuel lasts. *)
Lemma users_loop_length fuel i n mn mx users w :
  List.length (fst (users_loop fuel i (int n) mn mx users w))
  = (List.length users + Nat.min fuel (Z.to_nat (n - i)))%nat.
Proof.
  revert i users w. induction fuel as [|fuel IH]; intros i users w;
    cbn [users_loop].
  - cbn [fst]. lia.
  - rewrite num_lt_int. destruct (Z.ltb_spec i n) as [Hlt | Hge].
    + unfold Math_random. cbv beta iota zeta. rewrite IH.
      rewrite length_app. cbn [List.length]. lia.
    + cbn [fst]. lia.
Qed.

(** C10: for a label that parses to a range and an integral user count,
    the drill-down lists exactly [min(50, max(1, totalUsers))] users, hence at
    least one, also when the count is zero or negative. *)
Theorem generateUsersForBucket_count :
  forall (label : jsstring) (range : Range) (totalUsers : Z) (w : random_source),
    parseBucket label = Some range ->
    Z.of_nat (List.length (fst (generateUsersForBucket label (int totalUsers) w)))
    = Z.min 50 (Z.max 1 totalUsers) /\
    (1 <= List.length (fst (generateUsersForBucket label (int totalUsers) w)))%nat.
Proof.
  intros label range totalUsers w Hparse.
  unfold generateUsersForBucket. rewrite Hparse.
  rewrite Math_max_int, Math_min_int.
  pose proof (users_loop_length loop_bound 0 (Z.min 50 (Z.max 1 totalUsers))
                (min range) (max range) [] w) as Hlen.
  destruct (users_loop loop_bound 0 (int (Z.min 50 (Z.max 1 totalUsers)))
              (min range) (max range) [] w) as [users w'].
  cbn [fst] in *. rewrite Array_sort_length, Hlen. unfold loop_bound.
  cbn [List.length]. lia.
Qed.

Lemma generateUsersForBucket_count_witness :
  Z.of_nat (List.length (fst (generateUsersForBucket (str "$20-40") (int (-3))
                                (mkSource (fun _ => lit 0.5) 0))))
  = Z.min 50 (Z.max 1 (-3)) /\
  (1 <= List.length (fst (generateUsersForBucket (str "$20-40") (int (-3))
                            (mkSource (fun _ => lit 0.5) 0))))%nat.
Proof.
  apply (generateUsersForBucket_count (str "$20-40") (mkRange (int 20) (int 40))).
  vm_compute. reflexivity.
Defined.

(** ** The error of one rounding *)

Section RoundingError.

Local Open Scope Q_scope.

Lemma rounded_error q :
  0 < q -> Qabs (rounded q - q) <= pow2 (ulp_exp q) * (1 # 2).
Proof.
  intros Hq. unfold rounded. pose proof (pow2_pos (ulp_exp q)) as Hu.
  set (u := pow2 (ulp_exp q)) in *.
  pose proof (rne_error (q / u)) as He.
  apply Qabs_Qle_condition in He. destruct He as [He1 He2].
  assert (Hqu : q / u * u == q) by (apply Qdiv_mult_cancel; exact Hu).
  apply Qabs_Qle_condition. split.
  - assert (H : (inject_Z (rne (q / u)) - q / u) * u >= - (1 # 2) * u)
      by (apply Qmult_le_compat_r; lra).
    nra.
  - assert (H : (inject_Z (rne (q / u)) - q / u) * u <= (1 # 2) * u)
      by (apply Qmult_le_compat_r; lra).
    nra.
Qed.

Lemma ulp_bound q :
  0 < q -> pow2 (ulp_exp q) <= q * pow2 (-52) + pow2 (-1074).
Proof.
  intros Hq. destruct (flog2_spec q Hq) as [Hf _].
  pose proof (pow2_pos (-52)) as H52. pose proof (pow2_pos (-1074)) as H1074.
  destruct (ulp_exp_cases q) as [E | E]; rewrite E.
  - nra.
  - replace (flog2 q - 52)%Z with (flog2 q + - 52)%Z by lia.
    rewrite pow2_add. nra.
Qed.

(** A finite result of [round] is within half a unit in the last place:
    a relative error of [2^-53], or [2^-1075] near zero. *)
Lemma round_error q r :
  round q = Fin r -> Qabs (r - q) <= Qabs q * pow2 (-53) + pow2 (-1075).
Proof.
  assert (Hhalf : forall e, pow2 e * (1 # 2) == pow2 (e - 1)).
  { intros e. replace e with ((e - 1) + 1)%Z at 1 by lia. rewrite pow2_succ. ring. }
  assert (Hpos : forall p, 0 < p -> forall s, round_mag p = Some s ->
            Qabs (s - p) <= p * pow2 (-53) + pow2 (-1075)).
  { intros p Hp s Hs. rewrite round_mag_unfold in Hs.
    destruct (Qle_bool (pow2 (emax + 1)) (rounded p)); [discriminate|].
    assert (Hs' : Qred (rounded p) = s) by congruence.
    assert (Hred : s == rounded p) by (rewrite <- Hs'; apply Qred_correct).
    clear Hs Hs'.
    pose proof (rounded_error p Hp) as H1. pose proof (ulp_bound p Hp) as H2.
    pose proof (Hhalf (-52)%Z) as H3. pose proof (Hhalf (-1074)%Z) as H4.
    change (-52 - 1)%Z with (-53)%Z in H3. change (-1074 - 1)%Z with (-1075)%Z in H4.
    apply Qabs_Qle_condition in H1. destruct H1 as [H1a H1b].
    assert (H5 : p * pow2 (-52) * (1 # 2) == p * pow2 (-53))
      by (rewrite <- H3; ring).
    apply Qabs_Qle_condition.
    set (a52 := pow2 (-52)) in *. set (a53 := pow2 (-53)) in *.
    set (a1074 := pow2 (-1074)) in *. set (a1075 := pow2 (-1075)) in *.
    set (u := pow2 (ulp_exp p)) in *.
    clearbody a52 a53 a1074 a1075 u. split; lra. }
  unfold round. destruct (Qcompare_spec q 0) as [E | E | E].
  - intros [= <-]. rewrite E. pose proof (pow2_pos (-1075)). 
    change (Qabs (0 - 0)) with 0. change (Qabs 0) with 0. lra.
  - destruct (round_mag (- q)) as [s|] eqn:Hs; [|discriminate].
    intros [= <-]. assert (Hq : 0 < - q) by lra.
    pose proof (Hpos (- q) Hq s Hs) as H.
    rewrite (Qabs_neg q) by lra.
    rewrite <- Qabs_opp. setoid_replace (- (- s - q)) with (s - - q) by ring. exact H.
  - destruct (round_mag q) as [s|] eqn:Hs; [|discriminate].
    intros [= <-]. rewrite (Qabs_pos q) by lra. apply Hpos; assumption.
Qed.

End RoundingError.

(** ** The remaining percentage *)

Section RemainingPercent.

Local Open Scope Q_scope.




End RemainingPercent.




(** ** The days until the pool runs out *)

Section RunOut.

Local Open Scope Q_scope.

Lemma inject_Z_sub a b : inject_Z (a - b) == inject_Z a - inject_Z b.
Proof. unfold Z.sub, Qminus. rewrite inject_Z_plus, inject_Z_opp. reflexivity. Qed.

Lemma Qabs_inject_Z z : Qabs (inject_Z z) = inject_Z (Z.abs z).
Proof. reflexivity. Qed.

Lemma representable_Z_le z : (Z.abs z <= 2 ^ 53)%Z -> representable (inject_Z z).
Proof.
  intros Hz. destruct (Z.eq_dec (Z.abs z) (2 ^ 53)) as [E | E].
  - assert (Hc : z = (2 ^ 53)%Z \/ z = (- 2 ^ 53)%Z) by lia.
    destruct Hc as [-> | ->].
    + exists (2 ^ 52)%Z, 1%Z. repeat split; try lia; vm_compute; reflexivity.
    + exists (- 2 ^ 52)%Z, 1%Z. repeat split; try lia; vm_compute; reflexivity.
  - apply representable_Z. lia.
Qed.

Lemma num_gt_0 a : num_gt (Fin a) (int 0) = true <-> 0 < a.
Proof.
  unfold num_gt, num_lt, int. change (inject_Z 0) with 0.
  destruct (Qcompare_spec 0 a) as [E | E | E]; split; intros H;
    try reflexivity; try discriminate H; try lra.
Qed.

Lemma daysUntilRunOut_pos r a :
  0 < a -> daysUntilRunOut (Fin r) (Fin a) = Math_ceil (round (r / a)).
Proof.
  intros Ha. unfold daysUntilRunOut.
  rewrite (proj2 (num_gt_0 a) Ha), fdiv_pos by exact Ha. reflexivity.
Qed.

Lemma Qceiling_bounds q : inject_Z (Qceiling q) - 1 < q /\ q <= inject_Z (Qceiling q).
Proof.
  pose proof (Qle_ceiling q) as H1. pose proof (Qceiling_lt q) as H2.
  rewrite inject_Z_sub in H2. change (inject_Z 1) with 1 in H2. split; lra.
Qed.

Lemma Qceiling_unique q (c : Z) :
  inject_Z c - 1 < q -> q <= inject_Z c -> Qceiling q = c.
Proof.
  intros H1 H2. destruct (Qceiling_bounds q) as [H3 H4].
  assert (Ha : (Qceiling q < c + 1)%Z).
  { rewrite Zlt_Qlt, inject_Z_plus. change (inject_Z 1) with 1. lra. }
  assert (Hb : (c < Qceiling q + 1)%Z).
  { rewrite Zlt_Qlt, inject_Z_plus. change (inject_Z 1) with 1. lra. }
  lia.
Qed.

(** The quotient of two doubles is rounded before [Math.ceil] sees it; the
    rounded quotient never passes an integer, so the result is the ceiling
    of the exact quotient or, when the quotient lies within a rounding error
    above an integer, one less. *)
Lemma ceil_of_rounded q :
  Qabs q <= inject_Z (2 ^ 53 - 1) ->
  exists v : Q,
    round q = Fin v /\
    (Qceiling q - 1 <= Qceiling v <= Qceiling q)%Z /\
    inject_Z (Qceiling q) - 1 <= v /\ v <= inject_Z (Qceiling q).
Proof.
  intros Hq. destruct (Qceiling_bounds q) as [H1 H2].
  apply Qabs_Qle_condition in Hq. destruct Hq as [Hq1 Hq2].
  rewrite inject_Z_sub in Hq1, Hq2. change (inject_Z 1) with 1 in Hq1, Hq2.
  set (c := Qceiling q) in *.
  assert (Hc : (- 2 ^ 53 + 1 <= c < 2 ^ 53)%Z).
  { split.
    - rewrite Zle_Qle, inject_Z_plus, inject_Z_opp. change (inject_Z 1) with 1. lra.
    - rewrite Zlt_Qlt. lra. }
  destruct (round_between q (inject_Z (c - 1)) (inject_Z c)) as (v & Ev & Hv1 & Hv2 & _).
  - apply representable_Z_le. lia.
  - apply representable_Z_le. lia.
  - rewrite inject_Z_sub. change (inject_Z 1) with 1. lra.
  - exact H2.
  - exists v. rewrite inject_Z_sub in Hv1. change (inject_Z 1) with 1 in Hv1.
    split; [exact Ev|]. split; [|split; assumption].
    destruct (Qceiling_bounds v) as [H3 H4]. split.
    + assert (H : (c - 1 < Qceiling v + 1)%Z); [|lia].
      rewrite Zlt_Qlt, inject_Z_plus, inject_Z_sub. change (inject_Z 1) with 1. lra.
    + assert (H : (Qceiling v < c + 1)%Z); [|lia].
      rewrite Zlt_Qlt, inject_Z_plus. change (inject_Z 1) with 1. lra.
Qed.

(** For whole amounts the rounding of the quotient cannot reach the integer
    below: the quotient is at least [1/a] above it, more than the rounding
    error of a quotient below [2^53 / a]. *)
Lemma ceil_of_rounded_ratio (r a : Z) (v : Q) :
  (Z.abs r < 2 ^ 53)%Z -> (0 < a < 2 ^ 53)%Z ->
  round (inject_Z r / inject_Z a) = Fin v ->
  inject_Z (Qceiling (inject_Z r / inject_Z a)) - 1 < v.
Proof.
  intros Hr Ha Ev.
  set (q := inject_Z r / inject_Z a) in *.
  destruct (Qceiling_bounds q) as [H1 H2]. set (c := Qceiling q) in *.
  assert (HA : 0 < inject_Z a) by (apply inject_Z_pos; lia).
  assert (HqA : q * inject_Z a == inject_Z r) by (unfold q; field; lra).
  destruct (Qlt_le_dec (inject_Z c - 1) v) as [Hlt | Hle]; [exact Hlt | exfalso].
  (* the quotient is at least 1/a above c - 1 *)
  assert (Hgap : 1 <= (q - (inject_Z c - 1)) * inject_Z a).
  { assert (Hz : ((c - 1) * a < r)%Z).
    { rewrite Zlt_Qlt, <- HqA, inject_Z_mult, inject_Z_sub.
      change (inject_Z 1) with 1. nra. }
    assert (Hz' : ((c - 1) * a + 1 <= r)%Z) by lia.
    rewrite Zle_Qle, inject_Z_plus, inject_Z_mult, inject_Z_sub in Hz'.
    change (inject_Z 1) with 1 in Hz'. nra. }
  pose proof (round_error _ _ Ev) as He.
  assert (H53 : pow2 (-53) == 1 # 9007199254740992) by (vm_compute; reflexivity).
  assert (H1075 : pow2 (-1075) <= 1 # 1329227995784915872903807060280344576)
    by (vm_compute; intro; discriminate).
  pose proof (pow2_pos (-1075)) as Hpos.
  assert (HR : Qabs (inject_Z r) <= 9007199254740991).
  { rewrite Qabs_inject_Z. change 9007199254740991 with (inject_Z 9007199254740991).
    rewrite <- Zle_Qle. lia. }
  assert (HA' : inject_Z a <= 9007199254740991).
  { change 9007199254740991 with (inject_Z 9007199254740991). rewrite <- Zle_Qle. lia. }
  assert (HqR : Qabs q * inject_Z a == Qabs (inject_Z r)).
  { rewrite <- HqA, Qabs_Qmult, (Qabs_pos (inject_Z a)) by lra. reflexivity. }
  set (a53 := pow2 (-53)) in *. set (a1075 := pow2 (-1075)) in *.
  set (A := inject_Z a) in *. set (R := Qabs (inject_Z r)) in *.
  set (aq := Qabs q) in *. set (C := inject_Z c) in *.
  apply Qabs_Qle_condition in He. destruct He as [He1 He2].
  clearbody a53 a1075 A R aq C.
  assert (Hm : (q - v) * A <= (aq * a53 + a1075) * A) by (apply Qmult_le_compat_r; lra).
  assert (Hm2 : (q - (C - 1)) * A <= (q - v) * A) by (apply Qmult_le_compat_r; lra).
  assert (Hm3 : aq * a53 * A == R * a53) by (rewrite <- HqR; ring).
  assert (Hm4 : a1075 * A <= (1 # 1329227995784915872903807060280344576) * 9007199254740991)
    by nra.
  assert (Hm5 : R * a53 <= 9007199254740991 # 9007199254740992) by (rewrite H53; nra).
  lra.
Qed.

End RunOut.

(** C4, as the specification states it, fails in double precision: for the
    doubles nearest to 0.1 and 0.01 the exact quotient lies just above 10, so
    its ceiling is 11, while the rounded quotient is 10 and so is the result;
    and for the whole amounts 13510798882111492 and 3 the result is one
    below the exact ceiling as well. *)
Lemma daysUntilRunOut_not_exact_ceiling :
  (exists r a : Q,
     lit 0.1 = Fin r /\ lit 0.01 = Fin a /\
     daysUntilRunOut (Fin r) (Fin a) = int 10 /\
     Qceiling (r / a) = 11) /\
  daysUntilRunOut (int 13510798882111492) (int 3) = int 4503599627370497 /\
  Qceiling (inject_Z 13510798882111492 / inject_Z 3) = 4503599627370498.
Proof.
  split; [|split].
  - eexists. eexists. split; [vm_compute; reflexivity|].
    split; [vm_compute; reflexivity|]. split; vm_compute; reflexivity.
  - vm_compute. reflexivity.
  - vm_compute. reflexivity.
Qed.

(** C4, amended: with a positive average daily spend the days until run-out
    are [Math.ceil] of the double-precision quotient.  For whole amounts
    below [2^53] that is the ceiling of the exact quotient
    [remainingPool / averageDailySpend]; for any finite amounts with a
    quotient below [2^53 - 1] in magnitude it is that ceiling or one less,
    and one less only when the quotient exceeds an integer by no more than
    the rounding error of the division.  Without a positive spend (zero,
    negative or NaN) the days are [Infinity], no run-out date is projected
    and the cell shows an em dash. *)
Theorem daysUntilRunOut_cases :
  (forall r a : Z,
      Z.abs r < 2 ^ 53 -> 0 < a < 2 ^ 53 ->
      daysUntilRunOut (int r) (int a)
      = int (Qceiling (inject_Z r / inject_Z a))) /\
  (forall r a : Q,
      (0 < a)%Q -> (Qabs (r / a) <= inject_Z (2 ^ 53 - 1))%Q ->
      exists d : Z,
        daysUntilRunOut (Fin r) (Fin a) = int d /\
        Qceiling (r / a) - 1 <= d <= Qceiling (r / a) /\
        (d < Qceiling (r / a) ->
         (0 < r / a - inject_Z d /\
          r / a - inject_Z d <= Qabs (r / a) * pow2 (-53) + pow2 (-1075))%Q)) /\
  (forall (remainingPool averageDailySpend : number) (now : Z),
      num_gt averageDailySpend (int 0) = false ->
      daysUntilRunOut remainingPool averageDailySpend = Infinity /\
      projectedRunOutDate now (daysUntilRunOut remainingPool averageDailySpend)
      = None /\
      runOutCell
        (projectedRunOutDate now (daysUntilRunOut remainingPool averageDailySpend))
      = text em_dash).
Proof.
  split; [|split].
  - intros r a Hr Ha.
    assert (HA : (0 < inject_Z a)%Q) by (apply inject_Z_pos; lia).
    unfold int at 1 2. rewrite daysUntilRunOut_pos by exact HA.
    set (q := (inject_Z r / inject_Z a)%Q).
    assert (Hq : (Qabs q <= inject_Z (2 ^ 53 - 1))%Q).
    { assert (Hr' : (Qabs (inject_Z r) <= inject_Z (2 ^ 53 - 1))%Q).
      { rewrite Qabs_inject_Z, <- Zle_Qle. lia. }
      assert (HqA : (Qabs q * inject_Z a == Qabs (inject_Z r))%Q).
      { unfold q. rewrite <- (Qabs_pos (inject_Z a)) at 2 by lra.
        rewrite <- Qabs_Qmult. apply Qabs_wd. field. lra. }
      pose proof (Qabs_nonneg q) as Hq0.
      assert (H1 : (1 <= inject_Z a)%Q)
        by (change 1%Q with (inject_Z 1); rewrite <- Zle_Qle; lia).
      set (B := inject_Z (2 ^ 53 - 1)) in *. clearbody B. nra. }
    destruct (ceil_of_rounded q Hq) as (v & Ev & _ & Hv1 & Hv2).
    pose proof (ceil_of_rounded_ratio r a v Hr Ha Ev) as Hv3. fold q in Hv3.
    rewrite Ev. cbn [Math_ceil]. f_equal.
    apply Qceiling_unique; assumption.
  - intros r a Ha Hq. rewrite daysUntilRunOut_pos by exact Ha.
    destruct (ceil_of_rounded (r / a) Hq) as (v & Ev & Hc & Hv1 & Hv2).
    exists (Qceiling v). rewrite Ev. split; [reflexivity|]. split; [exact Hc|].
    intros Hlt. assert (E : Qceiling v = (Qceiling (r / a) - 1)%Z) by lia.
    destruct (Qceiling_bounds v) as [H3 H4]. destruct (Qceiling_bounds (r / a)) as [H5 H6].
    rewrite E in *. rewrite inject_Z_sub in *. change (inject_Z 1) with 1%Q in *.
    assert (Hv : (v == inject_Z (Qceiling (r / a)) - 1)%Q) by lra.
    pose proof (round_error _ _ Ev) as He.
    apply Qabs_Qle_condition in He. destruct He as [He1 He2].
    split; lra.
  - intros remainingPool averageDailySpend now H. unfold daysUntilRunOut.
    rewrite H. repeat split; reflexivity.
Qed.

Lemma daysUntilRunOut_cases_witness :
  daysUntilRunOut (int 732450) (int 4000) = int 184 /\
  (exists d : Z,
     daysUntilRunOut (Fin (1 # 10)) (Fin (1 # 100)) = int d /\
     Qceiling ((1 # 10) / (1 # 100)) - 1 <= d <= Qceiling ((1 # 10) / (1 # 100))) /\
  runOutCell (projectedRunOutDate 0 (daysUntilRunOut (int 732450) (int 0)))
  = text em_dash.
Proof.
  pose proof daysUntilRunOut_cases as (Hint & Hfin & Hzero).
  split; [|split].
  - rewrite (Hint 732450 4000) by (split; try lia; reflexivity).
    vm_compute. reflexivity.
  - destruct (Hfin (1 # 10)%Q (1 # 100)%Q) as (d & Ed & Hd & _).
    + reflexivity.
    + vm_compute. intro H. discriminate H.
    + exists d. split; [exact Ed | exact Hd].
  - apply (Hzero (int 732450) (int 0) 0). reflexivity.
Defined.

(** ** Doubles are multiples of [2^-1074] *)

Section Grid.

Local Open Scope Q_scope.









End Grid.

(** ** Sorting by spend *)

Lemma sort_insert_Forall {A : Type} (P : A -> Prop) cmp x l :
  P x -> Forall P l -> Forall P (sort_insert cmp x l).
Proof.
  intros Hx Hl. induction Hl as [|y l Hy Hl IH]; cbn [sort_insert].
  - constructor; [exact Hx | constructor].
  - destruct (num_gt (cmp x y) (int 0)).
    + constructor; assumption.
    + constructor; [exact Hx|]. constructor; assumption.
Qed.

Lemma Array_sort_Forall {A : Type} (P : A -> Prop) cmp l :
  Forall P l -> Forall P (Array_sort cmp l).
Proof.
  intros Hl. induction Hl as [|x l Hx Hl IH]; cbn [Array_sort].
  - constructor.
  - apply sort_insert_Forall; assumption.
Qed.





(** ** The loop of [generateUsersForBucket] *)

(** Past 50 the loop condition is false, whatever the user count. *)
Lemma toShow_at_most_50 (totalUsers : number) (i : Z) :
  50 <= i ->
  num_lt (int i) (Math_min (int 50) (Math_max (int 1) totalUsers)) = false.
Proof.
  intros Hi.
  assert (H50 : num_lt (int i) (int 50) = false)
    by (rewrite num_lt_int; apply Z.ltb_ge; exact Hi).
  destruct (Math_max (int 1) totalUsers) as [| | |v]; try reflexivity; try exact H50.
  unfold Math_min. change (int 50) with (Fin (inject_Z 50)) at 1.
  cbv iota. destruct (num_lt (Fin v) (int 50)) eqn:E; [|exact H50].
  unfold num_lt, int in *.
  destruct (Qcompare_spec v (inject_Z 50)) as [F | F | F]; try discriminate E.
  assert (Hi' : (inject_Z 50 <= inject_Z i)%Q) by (rewrite <- Zle_Qle; exact Hi).
  destruct (Qcompare_spec (inject_Z i) v) as [G | G | G]; try reflexivity. lra.
Qed.

(** So the fuel of the loop is never what stops it: more fuel gives the
    same users. *)
Lemma users_loop_fuel_enough toShow mn mx :
  (forall j, 50 <= j -> num_lt (int j) toShow = false) ->
  forall fuel extra i users w,
    50 <= i + Z.of_nat fuel ->
    users_loop (fuel + extra) i toShow mn mx users w
    = users_loop fuel i toShow mn mx users w.
Proof.
  intros Hstop. induction fuel as [|fuel IH]; intros extra i users w Hi.
  - cbn [Nat.add users_loop]. destruct extra as [|extra]; cbn [users_loop]; [reflexivity|].
    rewrite Hstop by lia. reflexivity.
  - cbn [Nat.add users_loop]. destruct (num_lt (int i) toShow); [|reflexivity].
    unfold Math_random. cbv beta iota zeta. apply IH. lia.
Qed.


(** ** More on rounding: one-sided bounds, and what a double is *)

Section Doubles.

Local Open Scope Q_scope.












End Doubles.

(** ** One synthetic spend *)

Section OneSpend.

Local Open Scope Q_scope.





End OneSpend.

(** ** The users of a bucket, in the order of the draws *)

Lemma users_loop_generated fuel :
  forall i toShow mn mx users w,
  exists news,
    fst (users_loop fuel i toShow mn mx users w) = (users ++ news)%list /\
    forall (j : nat) (usr : User),
      nth_error news j = Some usr ->
      spend usr
      = Number_of_numeral
          (toFixed (fadd mn (fmul (draws w (cursor w + 2 * j)) (fsub mx mn))) 2).
Proof.
  induction fuel as [|fuel IH]; intros i toShow mn mx users w; cbn [users_loop].
  - exists []. rewrite app_nil_r. split; [reflexivity|].
    intros [|j] usr H; discriminate H.
  - destruct (num_lt (int i) toShow).
    + unfold Math_random. cbv beta iota zeta. cbn [draws cursor].
      match goal with
      | |- context [users_loop fuel (i + 1) toShow mn mx (users ++ [?new])%list ?w2] =>
          destruct (IH (i + 1) toShow mn mx (users ++ [new])%list w2) as (news & E & H);
          exists (new :: news)
      end.
      rewrite E, <- app_assoc. split; [reflexivity|].
      intros [|j] usr Hj; cbn [nth_error] in Hj.
      * injection Hj as <-. cbn [spend].
        replace (cursor w + 2 * 0)%nat with (cursor w) by lia. reflexivity.
      * rewrite (H j usr Hj). cbn [draws cursor].
        replace (S (S (cursor w)) + 2 * j)%nat with (cursor w + 2 * S j)%nat by lia.
        reflexivity.
    + exists []. rewrite app_nil_r. split; [reflexivity|].
      intros [|j] usr H; discriminate H.
Qed.







(** ** The calendar *)

Lemma isLeapYear_spec y :
  isLeapYear y = true <->
  y mod 4 = 0 /\ (y mod 100 <> 0 \/ y mod 400 = 0).
Proof.
  unfold isLeapYear. rewrite andb_true_iff, orb_true_iff, negb_true_iff.
  rewrite !Z.eqb_eq, Z.eqb_neq. reflexivity.
Qed.

(** A year is 365 or 366 days long, as the leap-year rule says. *)
Lemma DayFromYear_succ y : DayFromYear (y + 1) = DayFromYear y + DaysInYear y.
Proof.
  unfold DayFromYear, DaysInYear.
  destruct (isLeapYear y) eqn:E.
  - apply isLeapYear_spec in E. destruct E as [E4 E].
    Z.to_euclidean_division_equations. lia.
  - assert (H : ~ (y mod 4 = 0 /\ (y mod 100 <> 0 \/ y mod 400 = 0))).
    { rewrite <- isLeapYear_spec, E. discriminate. }
    Z.to_euclidean_division_equations. lia.
Qed.

Lemma DaysInYear_cases y : DaysInYear y = 365 \/ DaysInYear y = 366.
Proof. unfold DaysInYear. destruct (isLeapYear y); auto. Qed.

Lemma DayFromYear_later y (n : nat) :
  DayFromYear y + 365 * Z.of_nat n <= DayFromYear (y + Z.of_nat n).
Proof.
  induction n as [|n IH].
  - replace (y + Z.of_nat 0) with y by lia. lia.
  - replace (y + Z.of_nat (S n)) with (y + Z.of_nat n + 1) by lia.
    rewrite DayFromYear_succ. pose proof (DaysInYear_cases (y + Z.of_nat n)). lia.
Qed.

Lemma DayFromYear_mono y1 y2 : y1 <= y2 -> DayFromYear y1 <= DayFromYear y2.
Proof.
  intros H. pose proof (DayFromYear_later y1 (Z.to_nat (y2 - y1))) as G.
  rewrite Z2Nat.id in G by lia. replace (y1 + (y2 - y1)) with y2 in G by lia. lia.
Qed.

(** [YearFromTime] finds the year that holds the day. *)
Lemma YearFromTime_spec t :
  DayFromYear (YearFromTime t) <= Day t < DayFromYear (YearFromTime t + 1).
Proof.
  unfold YearFromTime. set (d := Day t). cbv zeta.
  set (y := 1970 + d * 400 / 146097).
  assert (Hlo : DayFromYear (y - 1) <= d).
  { unfold y, DayFromYear. Z.to_euclidean_division_equations. lia. }
  assert (Hhi : d < DayFromYear (y + 2)).
  { unfold y, DayFromYear. Z.to_euclidean_division_equations. lia. }
  destruct (Z.leb_spec (DayFromYear (y + 1)) d) as [H1 | H1].
  - replace (y + 1 + 1) with (y + 2) by lia. split; assumption.
  - destruct (Z.ltb_spec d (DayFromYear y)) as [H2 | H2].
    + replace (y - 1 + 1) with y by lia. split; assumption.
    + split; assumption.
Qed.

Lemma YearFromTime_unique t y :
  DayFromYear y <= Day t < DayFromYear (y + 1) -> YearFromTime t = y.
Proof.
  intros [H1 H2]. destruct (YearFromTime_spec t) as [G1 G2].
  destruct (Z.lt_trichotomy (YearFromTime t) y) as [L | [E | L]]; [exfalso | exact E | exfalso].
  - pose proof (DayFromYear_mono (YearFromTime t + 1) y ltac:(lia)). lia.
  - pose proof (DayFromYear_mono (y + 1) (YearFromTime t) ltac:(lia)). lia.
Qed.

Lemma TimeWithinDay_range t : 0 <= TimeWithinDay t < msPerDay.
Proof. unfold TimeWithinDay, msPerDay. apply Z.mod_pos_bound. lia. Qed.

Lemma Day_MakeDate d tod :
  0 <= tod < msPerDay ->
  Day (MakeDate d tod) = d /\ TimeWithinDay (MakeDate d tod) = tod.
Proof.
  unfold Day, TimeWithinDay, MakeDate, msPerDay. intros H.
  Z.to_euclidean_division_equations. lia.
Qed.

Lemma DayWithinYear_range t : 0 <= DayWithinYear t < DaysInYear (YearFromTime t).
Proof.
  unfold DayWithinYear. destruct (YearFromTime_spec t) as [H1 H2].
  rewrite DayFromYear_succ in H2. lia.
Qed.

Lemma MakeDay_normal y m dt :
  0 <= m <= 11 ->
  MakeDay y m dt
  = DayFromYear y + monthStart m (if isLeapYear y then 1 else 0) + dt - 1.
Proof.
  intros Hm. unfold MakeDay. rewrite Z.div_small, Z.mod_small, Z.add_0_r by lia.
  reflexivity.
Qed.

Ltac split_ltb :=
  repeat match goal with
         | H : context [if ?a <? ?b then _ else _] |- _ =>
             destruct (Z.ltb_spec a b)
         | |- context [if ?a <? ?b then _ else _] =>
             destruct (Z.ltb_spec a b); try lia
         end.

(** The calendar date of a time value gives its day back. *)
Lemma fields_of_time t :
  0 <= MonthFromTime t <= 11 /\ 1 <= DateFromTime t <= 31 /\
  MakeDay (YearFromTime t) (MonthFromTime t) (DateFromTime t) = Day t.
Proof.
  pose proof (DayWithinYear_range t) as Hd.
  assert (HD : Day t = DayFromYear (YearFromTime t) + DayWithinYear t)
    by (unfold DayWithinYear; lia).
  unfold DateFromTime. remember (MonthFromTime t) as m eqn:Em.
  unfold MonthFromTime, InLeapYear, DaysInYear in *. cbv zeta in Em.
  set (y := YearFromTime t) in *. set (d := DayWithinYear t) in *.
  destruct (isLeapYear y) eqn:El; split_ltb; subst m;
    (split; [lia|]); rewrite MakeDay_normal by lia; rewrite El;
    cbn [monthStart]; lia.
Qed.

(** Closed month arithmetic, computed. *)
Ltac month_arith :=
  repeat match goal with
         | H : context [monthStart (?a + 1) _] |- _ =>
             let v := eval vm_compute in (a + 1) in change (a + 1) with v in H
         | |- context [monthStart (?a + 1) _] =>
             let v := eval vm_compute in (a + 1) in change (a + 1) with v
         | H : context [if ?a =? 11 then _ else _] |- _ =>
             let v := eval vm_compute in (a =? 11) in change (a =? 11) with v in H;
             cbv iota in H
         end;
  cbn [monthStart] in *.

(** Conversely, a day of month [m] of year [y] has that calendar date. *)
Lemma fields_of_day y m dt t :
  0 <= m <= 11 -> 1 <= dt ->
  dt <= (if m =? 11 then 31
         else monthStart (m + 1) (if isLeapYear y then 1 else 0)
              - monthStart m (if isLeapYear y then 1 else 0)) ->
  Day t = DayFromYear y + monthStart m (if isLeapYear y then 1 else 0) + dt - 1 ->
  YearFromTime t = y /\ MonthFromTime t = m /\ DateFromTime t = dt.
Proof.
  intros Hm Hdt1 Hdt2 HD.
  assert (Hleap : DaysInYear y = 365 + (if isLeapYear y then 1 else 0))
    by (unfold DaysInYear; destruct (isLeapYear y); reflexivity).
  assert (Hl01 : 0 <= (if isLeapYear y then 1 else 0) <= 1)
    by (destruct (isLeapYear y); lia).
  remember (if isLeapYear y then 1 else 0) as leap eqn:Eleap.
  assert (Hcases : m = 0 \/ m = 1 \/ m = 2 \/ m = 3 \/ m = 4 \/ m = 5 \/ m = 6 \/
                   m = 7 \/ m = 8 \/ m = 9 \/ m = 10 \/ m = 11) by lia.
  assert (HW : 0 <= monthStart m leap + dt - 1 < DaysInYear y).
  { rewrite Hleap. clear HD.
    repeat (destruct Hcases as [-> | Hcases]; [month_arith; lia|]).
    subst m. month_arith. lia. }
  assert (HY : YearFromTime t = y).
  { apply YearFromTime_unique. rewrite DayFromYear_succ. lia. }
  split; [exact HY|].
  assert (HD' : DayWithinYear t = monthStart m leap + dt - 1)
    by (unfold DayWithinYear; rewrite HY; lia).
  assert (HL : InLeapYear t = leap)
    by (unfold InLeapYear; rewrite HY; symmetry; exact Eleap).
  unfold DateFromTime, MonthFromTime. rewrite HD', HL. cbv zeta.
  clear HD HD' HL HW Hleap Eleap.
  repeat (destruct Hcases as [-> | Hcases];
          [month_arith; split_ltb; split; cbn [monthStart]; lia|]).
  subst m. month_arith. split_ltb; split; cbn [monthStart]; lia.
Qed.

Lemma DaysInMonth_eq y M :
  DaysInMonth y M
  = (if M mod 12 =? 11 then 31
     else monthStart (M mod 12 + 1) (if isLeapYear (y + M / 12) then 1 else 0)
          - monthStart (M mod 12) (if isLeapYear (y + M / 12) then 1 else 0)).
Proof.
  unfold DaysInMonth, MakeDay.
  assert (Hm : 0 <= M mod 12 < 12) by (apply Z.mod_pos_bound; lia).
  destruct (Z.eqb_spec (M mod 12) 11) as [E | E].
  - assert (E1 : (M + 1) / 12 = M / 12 + 1) by (Z.to_euclidean_division_equations; lia).
    assert (E2 : (M + 1) mod 12 = 0) by (Z.to_euclidean_division_equations; lia).
    rewrite E1, E2, E. replace (y + (M / 12 + 1)) with (y + M / 12 + 1) by lia.
    rewrite DayFromYear_succ. unfold DaysInYear.
    destruct (isLeapYear (y + M / 12)), (isLeapYear (y + M / 12 + 1));
      cbn [monthStart]; lia.
  - assert (E1 : (M + 1) / 12 = M / 12) by (Z.to_euclidean_division_equations; lia).
    assert (E2 : (M + 1) mod 12 = M mod 12 + 1) by (Z.to_euclidean_division_equations; lia).
    rewrite E1, E2. lia.
Qed.

(** The calendar date of a day made by [MakeDay], when the month has such a
    day. *)
Lemma fields_of_MakeDay y M dt t :
  1 <= dt <= DaysInMonth y M -> Day t = MakeDay y M dt ->
  YearFromTime t = y + M / 12 /\ MonthFromTime t = M mod 12 /\ DateFromTime t = dt.
Proof.
  intros [H1 H2] HD. rewrite DaysInMonth_eq in H2.
  assert (Hm : 0 <= M mod 12 < 12) by (apply Z.mod_pos_bound; lia).
  apply fields_of_day; [lia | exact H1 | exact H2 |].
  rewrite HD. unfold MakeDay. reflexivity.
Qed.

(** Setting the month of a local time [k] on gives a local time [k] calendar
    months later. *)
Lemma months_later_MakeDate k t :
  months_later k t
    (MakeDate (MakeDay (YearFromTime t) (MonthFromTime t + k) (DateFromTime t))
              (TimeWithinDay t)).
Proof.
  destruct (Day_MakeDate (MakeDay (YearFromTime t) (MonthFromTime t + k) (DateFromTime t))
              (TimeWithinDay t) (TimeWithinDay_range t)) as [HD HT].
  destruct (fields_of_time t) as (_ & [Hdt _] & _).
  split; [exact HT|]. split; [exact HD|].
  intros Hlen.
  destruct (fields_of_MakeDay _ _ _ _ (conj Hdt Hlen) HD) as (HY & HM & HDt).
  split; [exact HDt|]. rewrite HY, HM.
  Z.to_euclidean_division_equations. lia.
Qed.

Lemma MakeDay_year_back y m dt : MakeDay (y - 1) m dt = MakeDay y (m + -12) dt.
Proof.
  unfold MakeDay.
  replace ((m + -12) / 12) with (m / 12 - 1) by (Z.to_euclidean_division_equations; lia).
  replace ((m + -12) mod 12) with (m mod 12) by (Z.to_euclidean_division_equations; lia).
  replace (y + (m / 12 - 1)) with (y - 1 + m / 12) by lia. reflexivity.
Qed.

Ltac closed_div :=
  repeat match goal with
         | |- context [?a / 12] =>
             let v := eval vm_compute in (a / 12) in change (a / 12) with v
         | |- context [?a mod 12] =>
             let v := eval vm_compute in (a mod 12) in change (a mod 12) with v
         end.

(** Three, six, nine and twelve months span a quarter, half a year, three
    quarters and a year of days, whatever the day of the month. *)
Lemma MakeDay_spans y m dt :
  0 <= m <= 11 ->
  89 <= MakeDay y (m + 3) dt - MakeDay y m dt <= 92 /\
  181 <= MakeDay y (m + 6) dt - MakeDay y m dt <= 184 /\
  273 <= MakeDay y (m + 9) dt - MakeDay y m dt <= 276 /\
  365 <= MakeDay y (m + 12) dt - MakeDay y m dt <= 366 /\
  365 <= MakeDay y m dt - MakeDay (y - 1) m dt <= 366.
Proof.
  intros Hm.
  assert (Hcases : m = 0 \/ m = 1 \/ m = 2 \/ m = 3 \/ m = 4 \/ m = 5 \/ m = 6 \/
                   m = 7 \/ m = 8 \/ m = 9 \/ m = 10 \/ m = 11) by lia.
  pose proof (DayFromYear_succ y) as Hnext.
  pose proof (DayFromYear_succ (y - 1)) as Hprev.
  replace (y - 1 + 1) with y in Hprev by lia.
  unfold DaysInYear in Hnext, Hprev. unfold MakeDay.
  repeat (destruct Hcases as [-> | Hcases];
          [closed_div; rewrite ?Z.add_0_r;
           destruct (isLeapYear y), (isLeapYear (y + 1)), (isLeapYear (y - 1));
           cbn [monthStart]; lia|]).
  subst m. closed_div. rewrite ?Z.add_0_r.
  destruct (isLeapYear y), (isLeapYear (y + 1)), (isLeapYear (y - 1));
    cbn [monthStart]; lia.
Qed.

Lemma monthStart_step mn leap :
  0 <= mn < 11 -> 0 <= leap <= 1 ->
  monthStart mn leap + 28 <= monthStart (mn + 1) leap.
Proof.
  intros Hmn Hleap.
  assert (H : mn = 0 \/ mn = 1 \/ mn = 2 \/ mn = 3 \/ mn = 4 \/ mn = 5 \/ mn = 6 \/
              mn = 7 \/ mn = 8 \/ mn = 9 \/ mn = 10) by lia.
  repeat (destruct H as [-> | H]; [month_arith; lia|]).
  subst. month_arith. lia.
Qed.

(** A month later is at least 28 days later. *)
Lemma MakeDay_next_month y m dt : MakeDay y m dt + 28 <= MakeDay y (m + 1) dt.
Proof.
  unfold MakeDay.
  assert (Hm : 0 <= m mod 12 < 12) by (apply Z.mod_pos_bound; lia).
  destruct (Z.eq_dec (m mod 12) 11) as [E | E].
  - assert (E1 : (m + 1) / 12 = m / 12 + 1) by (Z.to_euclidean_division_equations; lia).
    assert (E2 : (m + 1) mod 12 = 0) by (Z.to_euclidean_division_equations; lia).
    rewrite E1, E2, E. replace (y + (m / 12 + 1)) with (y + m / 12 + 1) by lia.
    rewrite DayFromYear_succ. unfold DaysInYear.
    destruct (isLeapYear (y + m / 12)), (isLeapYear (y + m / 12 + 1));
      cbn [monthStart]; lia.
  - assert (E1 : (m + 1) / 12 = m / 12) by (Z.to_euclidean_division_equations; lia).
    assert (E2 : (m + 1) mod 12 = m mod 12 + 1) by (Z.to_euclidean_division_equations; lia).
    rewrite E1, E2.
    pose proof (monthStart_step (m mod 12) (if isLeapYear (y + m / 12) then 1 else 0)) as H.
    destruct (isLeapYear (y + m / 12)); lia.
Qed.

Lemma MakeDay_later_month y m dt (k : nat) :
  MakeDay y m dt + 28 * Z.of_nat k <= MakeDay y (m + Z.of_nat k) dt.
Proof.
  induction k as [|k IH].
  - replace (m + Z.of_nat 0) with m by lia. lia.
  - replace (m + Z.of_nat (S k)) with (m + Z.of_nat k + 1) by lia.
    pose proof (MakeDay_next_month y (m + Z.of_nat k) dt). lia.
Qed.

(** ** True-up milestones *)

Lemma TimeClip_Some t a : TimeClip t = Some a -> a = t.
Proof. unfold TimeClip. destruct (_ <? _); [discriminate | congruence]. Qed.

Section Zone.

Variable LocalTZA : Z -> bool -> Z.
Hypothesis offset_below_a_day : forall t isUTC, Z.abs (LocalTZA t isUTC) <= msPerDay.

(** Local times at least two days apart are in the same order as instants:
    no offset is as large as a day. *)
Lemma UTC_order L1 L2 :
  L1 + 2 * msPerDay <= L2 -> UTC LocalTZA L1 <= UTC LocalTZA L2.
Proof.
  intros H. unfold UTC.
  pose proof (offset_below_a_day L1 false). pose proof (offset_below_a_day L2 false). lia.
Qed.

Lemma UTC_MakeDate_order d1 d2 tod :
  d1 + 28 <= d2 ->
  UTC LocalTZA (MakeDate d1 tod) <= UTC LocalTZA (MakeDate d2 tod).
Proof. intros H. apply UTC_order. unfold MakeDate, msPerDay. lia. Qed.

Lemma setMonth_Some c m :
  setMonth LocalTZA (Some c) (Some m)
  = TimeClip
      (UTC LocalTZA
         (MakeDate (MakeDay (YearFromTime (LocalTime LocalTZA c)) m
                            (DateFromTime (LocalTime LocalTZA c)))
                   (TimeWithinDay (LocalTime LocalTZA c)))).
Proof. reflexivity. Qed.

Lemma setMonth_not_after c m (j k : nat) :
  (j <= k)%nat ->
  not_after (setMonth LocalTZA (Some c) (Some (m + Z.of_nat j)))
            (setMonth LocalTZA (Some c) (Some (m + Z.of_nat k))).
Proof.
  intros Hjk a b Ha Hb. rewrite setMonth_Some in Ha, Hb.
  apply TimeClip_Some in Ha, Hb. rewrite Ha, Hb.
  destruct (Nat.eq_dec j k) as [-> | Hne]; [lia|].
  apply UTC_MakeDate_order.
  replace (m + Z.of_nat k) with (m + Z.of_nat j + Z.of_nat (k - j)) by lia.
  pose proof (MakeDay_later_month (YearFromTime (LocalTime LocalTZA c)) (m + Z.of_nat j)
                (DateFromTime (LocalTime LocalTZA c)) (k - j)) as H.
  lia.
Qed.

Lemma not_after_None_l d : not_after None d.
Proof. intros a b H. discriminate H. Qed.

Lemma trueUpMilestones_unfold rd :
  trueUpMilestones LocalTZA rd
  = map (fun k => setMonth LocalTZA (contractStart LocalTZA rd)
                    (option_map (fun m => m + k)
                       (getMonth LocalTZA (contractStart LocalTZA rd))))
        [3; 6; 9; 12].
Proof. reflexivity. Qed.

(** The milestones are in chronological order. *)
Lemma trueUpMilestones_ascending rd :
  ForallOrdPairs not_after (trueUpMilestones LocalTZA rd).
Proof.
  rewrite trueUpMilestones_unfold. cbn [map].
  destruct (contractStart LocalTZA rd) as [c|].
  - cbn [getMonth option_map]. set (m := MonthFromTime (LocalTime LocalTZA c)).
    pose proof (setMonth_not_after c m) as H.
    change 3 with (Z.of_nat 3). change 6 with (Z.of_nat 6).
    change 9 with (Z.of_nat 9). change 12 with (Z.of_nat 12).
    repeat (constructor; [repeat (constructor; [apply H; lia|]); constructor|]).
    constructor.
  - cbn [getMonth option_map setMonth].
    repeat (constructor; [repeat (constructor; [apply not_after_None_l|]); constructor|]).
    constructor.
Qed.

Lemma contractStart_Some r :
  contractStart LocalTZA (Some r)
  = TimeClip
      (UTC LocalTZA
         (MakeDate (MakeDay (YearFromTime (LocalTime LocalTZA r) - 1)
                            (MonthFromTime (LocalTime LocalTZA r))
                            (DateFromTime (LocalTime LocalTZA r)))
                   (TimeWithinDay (LocalTime LocalTZA r)))).
Proof. reflexivity. Qed.

(** The contract start is the renewal's local date and time, one year
    back. *)
Lemma contractStart_year_back r :
  exists Ls : Z,
    contractStart LocalTZA (Some r) = TimeClip (UTC LocalTZA Ls) /\
    months_later (-12) (LocalTime LocalTZA r) Ls /\
    365 <= Day (LocalTime LocalTZA r) - Day Ls <= 366.
Proof.
  set (L := LocalTime LocalTZA r).
  exists (MakeDate (MakeDay (YearFromTime L) (MonthFromTime L + -12) (DateFromTime L))
                   (TimeWithinDay L)).
  split; [|split].
  - rewrite contractStart_Some. fold L. rewrite MakeDay_year_back. reflexivity.
  - apply months_later_MakeDate.
  - destruct (Day_MakeDate (MakeDay (YearFromTime L) (MonthFromTime L + -12) (DateFromTime L))
                (TimeWithinDay L) (TimeWithinDay_range L)) as [HD _].
    rewrite HD, <- MakeDay_year_back.
    destruct (fields_of_time L) as (Hm & _ & HL). rewrite <- HL.
    apply (MakeDay_spans (YearFromTime L) (MonthFromTime L) (DateFromTime L) Hm).
Qed.

(** Each milestone is the contract start's local date and time, 3, 6, 9
    and 12 months on. *)
Lemma trueUpMilestones_quarters r c :
  contractStart LocalTZA (Some r) = Some c ->
  exists L1 L2 L3 L4 : Z,
    trueUpMilestones LocalTZA (Some r)
    = map (fun L => TimeClip (UTC LocalTZA L)) [L1; L2; L3; L4] /\
    (months_later 3 (LocalTime LocalTZA c) L1 /\
     89 <= Day L1 - Day (LocalTime LocalTZA c) <= 92) /\
    (months_later 6 (LocalTime LocalTZA c) L2 /\
     181 <= Day L2 - Day (LocalTime LocalTZA c) <= 184) /\
    (months_later 9 (LocalTime LocalTZA c) L3 /\
     273 <= Day L3 - Day (LocalTime LocalTZA c) <= 276) /\
    (months_later 12 (LocalTime LocalTZA c) L4 /\
     365 <= Day L4 - Day (LocalTime LocalTZA c) <= 366).
Proof.
  intros Hc. set (L := LocalTime LocalTZA c).
  set (at_month := fun k =>
         MakeDate (MakeDay (YearFromTime L) (MonthFromTime L + k) (DateFromTime L))
                  (TimeWithinDay L)).
  exists (at_month 3), (at_month 6), (at_month 9), (at_month 12).
  assert (HD : forall k, Day (at_month k)
                         = MakeDay (YearFromTime L) (MonthFromTime L + k) (DateFromTime L)).
  { intros k. apply Day_MakeDate, TimeWithinDay_range. }
  destruct (fields_of_time L) as (Hm & _ & HL).
  destruct (MakeDay_spans (YearFromTime L) (MonthFromTime L) (DateFromTime L) Hm)
    as (S3 & S6 & S9 & S12 & _).
  rewrite HL in S3, S6, S9, S12.
  split.
  - rewrite trueUpMilestones_unfold, Hc. cbn [map getMonth option_map].
    rewrite !setMonth_Some. reflexivity.
  - split; [|split; [|split]];
      (split; [apply months_later_MakeDate | rewrite HD; lia]).
Qed.

End Zone.

(** In a list in chronological order, the first date that passes the test
    is the earliest one that does. *)
Lemma find_earliest now l d :
  ForallOrdPairs not_after l ->
  find (not_before_now now) l = Some d ->
  In d l /\ not_before_now now d = true /\
  forall m, In m l -> not_before_now now m = true -> not_after d m.
Proof.
  intros Hl. induction Hl as [|x l Hx Hl IH]; cbn [find]; [discriminate|].
  destruct (not_before_now now x) eqn:E.
  - intros [= <-]. split; [left; reflexivity|]. split; [exact E|].
    intros m [<- | Hm] _.
    + intros a b Ha Hb. rewrite Ha in Hb. injection Hb as <-. lia.
    + rewrite Forall_forall in Hx. apply Hx, Hm.
  - intros Hf. destruct (IH Hf) as (Hin & Ht & Hmin).
    split; [right; exact Hin|]. split; [exact Ht|].
    intros m [<- | Hm] Htm; [congruence|]. apply Hmin; assumption.
Qed.

Lemma not_before_now_valid now d :
  not_before_now now d = true -> exists t, d = Some t /\ now <= t.
Proof.
  unfold not_before_now. destruct d as [t|]; [|discriminate].
  cbn [getTime]. unfold num_ge, num_gt. rewrite num_lt_int, num_eq_int.
  intros H. exists t. split; [reflexivity|].
  apply orb_prop in H. destruct H as [H | H]; [apply Z.ltb_lt in H | apply Z.eqb_eq in H]; lia.
Qed.

Lemma num_le_getTime a b : a <= b -> num_le (getTime (Some a)) (getTime (Some b)) = true.
Proof.
  intros H. cbn [getTime]. unfold num_le. rewrite num_lt_int, num_eq_int.
  destruct (Z.ltb_spec a b); [reflexivity|]. cbn [orb]. apply Z.eqb_eq. lia.
Qed.

(** In US Eastern time the milestones of a renewal on 15 January 2027,
    midnight, fall on midnight of 15 April, 15 July and 15 October 2026 in
    daylight time (04:00 UTC) and of 15 January 2027 in standard time (05:00
    UTC). *)
Lemma trueUpMilestones_eastern_2026 :
  contractStart eastern_2026 (Some 1799989200000) = Some 1768453200000 /\
  trueUpMilestones eastern_2026 (Some 1799989200000)
  = [Some 1776225600000; Some 1784088000000; Some 1792036800000; Some 1799989200000].
Proof. split; vm_compute; reflexivity. Qed.

(** C5: whatever the time zone (its offset may change with the date, as
    long as it stays below a day): the contract start is the renewal's local
    date and time of day one calendar year back, 365 or 366 days earlier;
    the four milestones are the contract start's local date and time of day
    3, 6, 9 and 12 calendar months on, a quarter, two, three and a year of
    days later; the next true-up is a milestone at or after now that is not
    after any other such milestone, when there is one, and the renewal date
    itself when there is none. *)
Theorem nextTrueUpDate_earliest :
  forall (LocalTZA : Z -> bool -> Z) (renewsOn : Date) (now : Z),
    (forall t isUTC, Z.abs (LocalTZA t isUTC) <= msPerDay) ->
    (forall r : Z,
        renewsOn = Some r ->
        exists Ls : Z,
          contractStart LocalTZA renewsOn = TimeClip (UTC LocalTZA Ls) /\
          months_later (-12) (LocalTime LocalTZA r) Ls /\
          365 <= Day (LocalTime LocalTZA r) - Day Ls <= 366) /\
    (forall c : Z,
        contractStart LocalTZA renewsOn = Some c ->
        exists L1 L2 L3 L4 : Z,
          trueUpMilestones LocalTZA renewsOn
          = map (fun L => TimeClip (UTC LocalTZA L)) [L1; L2; L3; L4] /\
          (months_later 3 (LocalTime LocalTZA c) L1 /\
           89 <= Day L1 - Day (LocalTime LocalTZA c) <= 92) /\
          (months_later 6 (LocalTime LocalTZA c) L2 /\
           181 <= Day L2 - Day (LocalTime LocalTZA c) <= 184) /\
          (months_later 9 (LocalTime LocalTZA c) L3 /\
           273 <= Day L3 - Day (LocalTime LocalTZA c) <= 276) /\
          (months_later 12 (LocalTime LocalTZA c) L4 /\
           365 <= Day L4 - Day (LocalTime LocalTZA c) <= 366)) /\
    ((exists d, In d (trueUpMilestones LocalTZA renewsOn) /\
                num_ge (getTime d) (int now) = true) ->
     In (nextTrueUpDate LocalTZA renewsOn now) (trueUpMilestones LocalTZA renewsOn) /\
     num_ge (getTime (nextTrueUpDate LocalTZA renewsOn now)) (int now) = true /\
     forall d, In d (trueUpMilestones LocalTZA renewsOn) ->
               num_ge (getTime d) (int now) = true ->
               num_le (getTime (nextTrueUpDate LocalTZA renewsOn now)) (getTime d) = true) /\
    ((forall d, In d (trueUpMilestones LocalTZA renewsOn) ->
                num_ge (getTime d) (int now) = false) ->
     nextTrueUpDate LocalTZA renewsOn now = renewsOn).
Proof.
  intros tz rd now Hoff. split; [|split].
  - intros r ->. apply contractStart_year_back.
  - intros c Hc. destruct rd as [r|]; [|discriminate Hc].
    apply trueUpMilestones_quarters. exact Hc.
  - unfold nextTrueUpDate. fold (not_before_now now).
    pose proof (trueUpMilestones_ascending tz Hoff rd) as Hasc.
    destruct (find (not_before_now now) (trueUpMilestones tz rd)) as [first|] eqn:Hfind.
    + destruct (find_earliest now _ _ Hasc Hfind) as (Hin & Htest & Hmin).
      split.
      * intros _. split; [exact Hin|]. split; [exact Htest|].
        intros d Hd Hdt. pose proof (Hmin d Hd Hdt) as Hle.
        destruct (not_before_now_valid now first Htest) as (a & -> & _).
        destruct (not_before_now_valid now d Hdt) as (b & -> & _).
        apply num_le_getTime. apply Hle; reflexivity.
      * intros Hnone. apply find_some in Hfind. destruct Hfind as [Hin' Ht'].
        unfold not_before_now in Ht'. rewrite (Hnone first Hin') in Ht'. discriminate Ht'.
    + split; [|intros _; reflexivity].
      intros (d & Hd & Hdt). exfalso.
      pose proof (find_none _ _ Hfind d Hd) as Hn. unfold not_before_now in Hn. congruence.
Qed.

Lemma nextTrueUpDate_earliest_witness :
  (exists Ls : Z,
      contractStart eastern_2026 (Some 1799989200000)
      = TimeClip (UTC eastern_2026 Ls) /\
      months_later (-12) (LocalTime eastern_2026 1799989200000) Ls /\
      365 <= Day (LocalTime eastern_2026 1799989200000) - Day Ls <= 366) /\
  In (nextTrueUpDate eastern_2026 (Some 1799989200000) 1780000000000)
     (trueUpMilestones eastern_2026 (Some 1799989200000)) /\
  num_ge (getTime (nextTrueUpDate eastern_2026 (Some 1799989200000) 1780000000000))
         (int 1780000000000) = true /\
  forall d, In d (trueUpMilestones eastern_2026 (Some 1799989200000)) ->
            num_ge (getTime d) (int 1780000000000) = true ->
            num_le (getTime (nextTrueUpDate eastern_2026 (Some 1799989200000)
                               1780000000000))
                   (getTime d) = true.
Proof.
  destruct (nextTrueUpDate_earliest eastern_2026 (Some 1799989200000) 1780000000000)
    as (Hstart & _ & Hnext & _).
  - intros t isUTC. unfold eastern_2026, msPerDay.
    destruct isUTC; destruct (_ && _); lia.
  - split; [apply (Hstart 1799989200000 eq_refl)|].
    apply Hnext. exists (Some 1784088000000). split.
    + vm_compute. right. left. reflexivity.
    + vm_compute. reflexivity.
Defined.

(* ================================================================== *)
(** * Part V: further properties of the code                           *)
(* ================================================================== *)

(** ** The hash is FNV-1a *)

Lemma ToInt32_mod x : ToInt32 x mod 2 ^ 32 = ToUint32 x.
Proof.
  unfold ToInt32. pose proof (ToUint32_range x) as H.
  destruct (ToUint32 x <? 2 ^ 31).
  - apply Z.mod_small. exact H.
  - replace (ToUint32 x - 2 ^ 32) with (ToUint32 x + (-1) * 2 ^ 32) by lia.
    rewrite Z.mod_add by lia. apply Z.mod_small. exact H.
Qed.

Lemma lxor_mod a b : Z.lxor a b mod 2 ^ 32 = Z.lxor (a mod 2 ^ 32) (b mod 2 ^ 32).
Proof.
  rewrite <- !Z.land_ones by lia. apply Z.bits_inj'. intros n Hn.
  rewrite Z.lxor_spec, !Z.land_spec, Z.lxor_spec.
  destruct (Z.testbit (Z.ones 32) n); rewrite ?andb_true_r, ?andb_false_r; reflexivity.
Qed.

Lemma ToUint32_bxor x y : ToUint32 (bxor x y) = Z.lxor (ToUint32 x) (ToUint32 y).
Proof.
  unfold bxor. rewrite ToUint32_int, lxor_mod, !ToInt32_mod. reflexivity.
Qed.

Lemma ToUint32_imul x y : ToUint32 (Math_imul x y) = (ToUint32 x * ToUint32 y) mod 2 ^ 32.
Proof.
  unfold Math_imul. rewrite ToUint32_int, ToInt32_mod, ToUint32_int.
  rewrite Z.mul_mod by lia. rewrite !ToInt32_mod. reflexivity.
Qed.

Lemma hash_fold_fnv (s : jsstring) (hash : number) :
  code_units s ->
  ToUint32
    (fold_left (fun hash c => Math_imul (bxor hash (charCode c)) (int 16777619))
               s hash)
  = fold_left fnv1a_step s (ToUint32 hash).
Proof.
  intros Hs. revert hash. induction Hs as [|c s Hc Hs IH]; intros hash; cbn [fold_left].
  - reflexivity.
  - rewrite IH. f_equal. unfold fnv1a_step.
    rewrite ToUint32_imul, ToUint32_bxor. unfold charCode. rewrite !ToUint32_int.
    rewrite (Z.mod_small c) by lia. rewrite (Z.mod_small 16777619) by lia. reflexivity.
Qed.

Lemma fnv1a_fold_range s h : 0 <= h < 2 ^ 32 -> 0 <= fold_left fnv1a_step s h < 2 ^ 32.
Proof.
  revert h. induction s as [|c s IH]; intros h Hh; cbn [fold_left]; [exact Hh|].
  apply IH. unfold fnv1a_step. apply Z.mod_pos_bound. lia.
Qed.

(** [hashStringToInt] computes 32-bit FNV-1a of the code units of its
    argument, and so an integer from 0 to 2^32 - 1; the signed arithmetic of
    [^] and [Math.imul] leaves no trace in the result. *)
Theorem hashStringToInt_is_fnv1a :
  forall s : jsstring,
    code_units s ->
    hashStringToInt s = int (fnv1a s) /\ 0 <= fnv1a s < 2 ^ 32.
Proof.
  intros s Hs. unfold hashStringToInt, fnv1a. rewrite ushr_0, hash_fold_fnv by exact Hs.
  rewrite ToUint32_int. change (2166136261 mod 2 ^ 32) with 2166136261.
  split; [reflexivity|]. apply fnv1a_fold_range. lia.
Qed.

Lemma hashStringToInt_is_fnv1a_witness :
  hashStringToInt (str "user449599@example.com")
  = int (fnv1a (str "user449599@example.com")) /\
  0 <= fnv1a (str "user449599@example.com") < 2 ^ 32.
Proof.
  apply (hashStringToInt_is_fnv1a (str "user449599@example.com")).
  unfold code_units. vm_compute. repeat (constructor; [split; [intro; discriminate | reflexivity]|]).
  constructor.
Defined.

(** ** The counter of the generator *)

Lemma small_below z : 0 <= z < 2 ^ 53 -> small z = true.
Proof. intros H. apply small_bound. lia. Qed.

Lemma prng_state_exact (a : Z) :
  0 <= a -> a + 1831565813 < 2 ^ 53 ->
  snd (prng (int a)) = int (a + 1831565813).
Proof.
  intros H0 H1. unfold prng. cbv zeta. cbn [snd]. apply fadd_int, small_below. lia.
Qed.

Lemma prng_value_wrapped (a : Z) :
  0 <= a -> a + 1831565813 < 2 ^ 53 ->
  fst (prng (int a)) = mulberry32_value (a + 1831565813).
Proof.
  intros H0 H1. unfold prng, mulberry32_value. cbv zeta. cbn [fst].
  rewrite fadd_int by (apply small_below; lia).
  set (t := int (a + 1831565813)). set (t' := int ((a + 1831565813) mod 2 ^ 32)).
  assert (HU : ToUint32 t = ToUint32 t').
  { unfold t, t'. rewrite !ToUint32_int. rewrite Z.mod_mod by lia. reflexivity. }
  assert (HI : ToInt32 t = ToInt32 t') by (unfold ToInt32; rewrite HU; reflexivity).
  unfold bxor, bor, ushr, Math_imul. rewrite HU, HI. reflexivity.
Qed.

(** The generator keeps its counter [t] as a double and never wraps it;
    for the first calls the double is exact, so call [n] returns what
    mulberry32 with a wrapped counter returns for [seed + (n+1) * 0x6D2B79F5].
    Seeded with a 32-bit integer that covers more than four million calls. *)
Theorem mulberry32_counter_exact :
  forall (seed : Z) (n : nat),
    0 <= seed < 2 ^ 32 ->
    seed + (Z.of_nat n + 1) * 1831565813 < 2 ^ 53 ->
    prng_nth (mulberry32 (int seed)) n
    = mulberry32_value (seed + (Z.of_nat n + 1) * 1831565813).
Proof.
  intros seed n Hseed Hn. unfold mulberry32. rewrite ushr_0, ToUint32_int.
  rewrite Z.mod_small by exact Hseed.
  assert (H : forall k a, 0 <= a -> a + (Z.of_nat k + 1) * 1831565813 < 2 ^ 53 ->
            prng_nth (int a) k = mulberry32_value (a + (Z.of_nat k + 1) * 1831565813)).
  { induction k as [|k IH]; intros a Ha Hk; cbn [prng_nth].
    - rewrite prng_value_wrapped by lia. f_equal; lia.
    - rewrite prng_state_exact by lia. rewrite IH by lia. f_equal; lia. }
  apply H; lia.
Qed.

Lemma mulberry32_counter_exact_witness :
  prng_nth (mulberry32 (int 4071651584)) 7
  = mulberry32_value (4071651584 + (Z.of_nat 7 + 1) * 1831565813).
Proof.
  apply (mulberry32_counter_exact 4071651584 7); split; try lia; reflexivity.
Defined.

(** ** The other fields of the statistics *)

Lemma stats_counts sf t :
  inside 0 1 sf ->
  exists requests tabs,
    agentRequests (fst (stats_of sf t)) = int requests /\ 1 <= requests /\
    tabCompletionsAccepted (fst (stats_of sf t)) = int tabs /\ 0 <= tabs.
Proof.
  intros Hsf. unfold stats_of, bind, ret. cbv zeta.
  do 8 draw. cbn [fst agentRequests tabCompletionsAccepted].
  match goal with |- exists r tb, ?AR = int r /\ _ /\ ?TAB = int tb /\ _ =>
    assert (HAR : integral 1 1000000 AR) by bounded_integral;
    assert (HTAB : integral 0 1000000 TAB) by bounded_integral
  end.
  destruct HAR as (r & Er & Hr). destruct HTAB as (tb & Etb & Htb).
  exists r, tb. rewrite Er, Etb. repeat split; lia.
Qed.

(** For every identity, finite spend and label, [agentRequests] is an
    integer of at least 1 and [tabCompletionsAccepted] a non-negative
    integer. *)
Theorem generateUserStats_counts :
  forall (email : jsstring) (spend : Q) (bucketLabel : option jsstring),
  exists requests tabs : Z,
    agentRequests (generateUserStats email (Fin spend) bucketLabel) = int requests /\
    1 <= requests /\
    tabCompletionsAccepted (generateUserStats email (Fin spend) bucketLabel) = int tabs /\
    0 <= tabs.
Proof.
  intros email spend bucketLabel. unfold generateUserStats.
  apply stats_counts, spendFactor_inside.
Qed.

(** ** A spend that is not a number *)

Lemma fadd_NaN_r x : fadd x NaN = NaN.
Proof. destruct x; reflexivity. Qed.

Lemma fdiv_NaN_r x : fdiv x NaN = NaN.
Proof. destruct x; reflexivity. Qed.

Lemma spendFactor_NaN label : spendFactor_of NaN label = NaN.
Proof.
  unfold spendFactor_of. cbn [fdiv].
  destruct (lit 0.05) eqn:E; reflexivity.
Qed.

(** With a NaN spend the drift correction cannot help: every percentage of
    [modelUsage] is NaN, for every identity and label. *)
Theorem generateUserStats_NaN_spend :
  forall (email : jsstring) (bucketLabel : option jsstring),
    modelUsage (generateUserStats email NaN bucketLabel)
    = [mkShare (str "gpt-5") NaN; mkShare (str "claude-4-sonnet") NaN;
       mkShare (str "claude-4-opus") NaN; mkShare (str "auto") NaN].
Proof.
  intros email bucketLabel. unfold generateUserStats. rewrite spendFactor_NaN.
  generalize (mulberry32 (hashStringToInt email)). intros t.
  unfold stats_of, bind, ret. cbv zeta. do 8 draw. cbn [fst modelUsage].
  cbn [fmul fsub fneg sign]. rewrite !fadd_NaN_r. rewrite !fdiv_NaN_r.
  cbn [fmul sign Math_round]. vm_compute. reflexivity.
Qed.

(** ** Nothing the page shows is negative *)

Lemma Math_max_0_not_negative x : num_lt (Math_max (int 0) x) (int 0) = false.
Proof.
  destruct x as [| | |v]; try reflexivity.
  unfold Math_max, int, num_lt.
  destruct (Qcompare_spec (inject_Z 0) v) as [E | E | E]; try reflexivity.
  destruct (Qcompare_spec v (inject_Z 0)) as [F | F | F]; try reflexivity. lra.
Qed.

(** Whatever the usage figures are (NaN and infinities included), none of
    the remaining percentage, the days until renewal, the projected overage
    and the projected seats added compares below zero. *)
Theorem page_metrics_not_negative :
  forall (stats : UsageStats) (now : Z),
    num_lt (remainingPercent (totalPool stats) (remainingPool stats)) (int 0) = false /\
    num_lt (daysUntilRenewal (renewalDate stats) now) (int 0) = false /\
    num_lt (projectedOverageSpend (averageDailySpend stats)
              (daysUntilRenewal (renewalDate stats) now) (remainingPool stats))
           (int 0) = false /\
    num_lt (projectedSeatsAdded (activeUsers stats) (licenseCount stats)) (int 0) = false.
Proof.
  intros stats now.
  unfold remainingPercent, daysUntilRenewal, projectedOverageSpend, projectedSeatsAdded.
  repeat split; apply Math_max_0_not_negative.
Qed.

(** ** The number of users listed, for any user count *)

Lemma users_loop_cond fuel i toShow toShow' mn mx users w :
  (forall j, num_lt (int j) toShow = num_lt (int j) toShow') ->
  users_loop fuel i toShow mn mx users w = users_loop fuel i toShow' mn mx users w.
Proof.
  intros H. revert i users w. induction fuel as [|fuel IH]; intros i users w;
    cbn [users_loop]; [reflexivity|].
  rewrite H. destruct (num_lt (int i) toShow'); [|reflexivity].
  unfold Math_random. cbv beta iota zeta. apply IH.
Qed.

Lemma num_lt_int_Fin j v : num_lt (int j) (Fin v) = (j <? Qceiling v).
Proof.
  unfold num_lt, int. pose proof (Qle_ceiling v) as H1. pose proof (Qceiling_lt v) as H2.
  destruct (Qcompare_spec (inject_Z j) v) as [E | E | E];
    destruct (Z.ltb_spec j (Qceiling v)) as [F | F]; try reflexivity; exfalso.
  - assert (Hc : Qceiling v = j).
    { rewrite <- (Qceiling_Z j). apply Qceiling_comp. symmetry. exact E. }
    lia.
  - rewrite Zle_Qle in F. lra.
  - assert (G : j <= Qceiling v - 1) by lia. rewrite Zle_Qle in G. lra.
Qed.

Lemma users_loop_NaN fuel i mn mx users w :
  users_loop fuel i NaN mn mx users w = (users, w).
Proof. destruct fuel; reflexivity. Qed.

Lemma toShow_Fin v :
  exists v', Math_min (int 50) (Math_max (int 1) (Fin v)) = Fin v' /\
             Qceiling v' = Z.min 50 (Z.max 1 (Qceiling v)).
Proof.
  unfold Math_max, int, num_lt.
  destruct (Qcompare_spec (inject_Z 1) v) as [E | E | E].
  - (* v = 1 *)
    exists (inject_Z 1). split; [reflexivity|].
    assert (Hc : Qceiling v = 1).
    { rewrite <- (Qceiling_Z 1). apply Qceiling_comp. symmetry. exact E. }
    rewrite Hc. reflexivity.
  - unfold Math_min, num_lt.
    change (inject_Z 1) with 1%Q in E.
    assert (Hc1 : 1 <= Qceiling v).
    { rewrite <- (Qceiling_Z 1). apply Qceiling_resp_le. apply Qlt_le_weak, E. }
    destruct (Qcompare_spec v (inject_Z 50)) as [F | F | F].
    + exists (inject_Z 50). split; [reflexivity|].
      assert (Hc : Qceiling v = 50).
      { rewrite <- (Qceiling_Z 50). apply Qceiling_comp. exact F. }
      rewrite Qceiling_Z, Hc. reflexivity.
    + exists v. split; [reflexivity|].
      assert (Hc : Qceiling v <= 50).
      { rewrite <- (Qceiling_Z 50). apply Qceiling_resp_le. apply Qlt_le_weak, F. }
      lia.
    + exists (inject_Z 50). split; [reflexivity|].
      assert (Hc : 50 <= Qceiling v).
      { rewrite <- (Qceiling_Z 50). apply Qceiling_resp_le. apply Qlt_le_weak, F. }
      rewrite Qceiling_Z. lia.
  - exists (inject_Z 1). split; [reflexivity|].
    change (inject_Z 1) with 1%Q in E.
    assert (Hc : Qceiling v <= 1).
    { rewrite <- (Qceiling_Z 1). apply Qceiling_resp_le. apply Qlt_le_weak, E. }
    rewrite Qceiling_Z. lia.
Qed.

(** For a label that parses, the drill-down lists no user at all when the
    user count is NaN, and otherwise rounds a fractional count up: a finite
    count [v] gives [min(50, max(1, ceil v))] users, [Infinity] gives 50 and
    [-Infinity] gives one. *)
Theorem generateUsersForBucket_count_any :
  forall (label : jsstring) (range : Range) (w : random_source),
    parseBucket label = Some range ->
    fst (generateUsersForBucket label NaN w) = [] /\
    (forall v : Q,
        Z.of_nat (List.length (fst (generateUsersForBucket label (Fin v) w)))
        = Z.min 50 (Z.max 1 (Qceiling v))) /\
    List.length (fst (generateUsersForBucket label PInf w)) = 50%nat /\
    List.length (fst (generateUsersForBucket label NInf w)) = 1%nat.
Proof.
  intros label range w Hparse.
  assert (Hint : forall n, 1 <= n <= 50 ->
            Z.of_nat (List.length
              (fst (let (users, w') :=
                      users_loop loop_bound 0 (int n) (min range) (max range) [] w in
                    (Array_sort (fun a b => fsub (spend b) (spend a)) users, w'))))
            = n).
  { intros n Hn.
    pose proof (users_loop_length loop_bound 0 n (min range) (max range) [] w) as Hlen.
    destruct (users_loop loop_bound 0 (int n) (min range) (max range) [] w) as [users w'].
    cbn [fst] in *. rewrite Array_sort_length, Hlen. unfold loop_bound.
    cbn [List.length]. lia. }
  unfold generateUsersForBucket. rewrite Hparse. split; [|split; [|split]].
  - change (Math_min (int 50) (Math_max (int 1) NaN)) with NaN.
    rewrite users_loop_NaN. reflexivity.
  - intros v. destruct (toShow_Fin v) as (v' & -> & Hc).
    rewrite (users_loop_cond loop_bound 0 (Fin v') (int (Qceiling v'))).
    + rewrite Hc. apply Hint. lia.
    + intros j. rewrite num_lt_int_Fin, num_lt_int. reflexivity.
  - change (Math_min (int 50) (Math_max (int 1) PInf)) with (int 50).
    apply Nat2Z.inj. rewrite (Hint 50) by lia. reflexivity.
  - change (Math_min (int 50) (Math_max (int 1) NInf)) with (int 1).
    apply Nat2Z.inj. rewrite (Hint 1) by lia. reflexivity.
Qed.

Lemma generateUsersForBucket_count_any_witness :
  fst (generateUsersForBucket (str "$20-40") NaN (mkSource (fun _ => lit 0.5) 0)) = [] /\
  Z.of_nat (List.length
    (fst (generateUsersForBucket (str "$20-40") (Fin 2.5) (mkSource (fun _ => lit 0.5) 0))))
  = 3.
Proof.
  pose proof (generateUsersForBucket_count_any (str "$20-40")
                (mkRange (int 20) (int 40)) (mkSource (fun _ => lit 0.5) 0) eq_refl)
    as (Hnan & Hfin & _).
  split; [exact Hnan | exact (Hfin 2.5%Q)].
Defined.

(** ** What a label can parse to *)

(** Whatever the label, a range that [parseBucket] returns was read from two
    non-empty runs of decimal digits: its bounds are the doubles nearest to
    two natural numbers, so never NaN and never negative. *)
Theorem parseBucket_bounds :
  forall (label : jsstring) (range : Range),
    parseBucket label = Some range ->
    exists g1 g2 : jsstring,
      g1 <> [] /\ g2 <> [] /\
      forallb is_digit g1 = true /\ forallb is_digit g2 = true /\
      min range = Number_of_digits g1 /\ max range = Number_of_digits g2 /\
      0 <= digits_value g1 /\ 0 <= digits_value g2 /\
      num_lt (min range) (int 0) = false /\ num_lt (max range) (int 0) = false /\
      min range <> NaN /\ max range <> NaN.
Proof.
  intros label range. unfold parseBucket.
  destruct (Regex.search bucket_pattern label) as [[g1 g2]|] eqn:E; [|discriminate].
  intros [= <-]. cbn [min max].
  assert (H : g1 <> [] /\ g2 <> [] /\
              forallb is_digit g1 = true /\ forallb is_digit g2 = true).
  { set (P := fun r : jsstring * jsstring =>
                fst r <> [] /\ snd r <> [] /\
                forallb is_digit (fst r) = true /\ forallb is_digit (snd r) = true).
    change (P (g1, g2)). revert E. apply (search_found bucket_pattern P).
    intros s' r'. unfold bucket_pattern. destruct s' as [|c s1]; [discriminate|].
    destruct (c =? dollar); [|discriminate].
    apply (plus_captures is_digit P). intros a1 s2 r1 Hne1 Hd1.
    destruct s2 as [|d s3]; [discriminate|].
    destruct (is_dash d); [|discriminate].
    apply (plus_captures is_digit P). intros a2 s4 r2 Hne2 Hd2 [= <-].
    unfold P. cbn [fst snd]. auto. }
  destruct H as (Hne1 & Hne2 & Hd1 & Hd2).
  pose proof (digits_value_nonneg g1 Hd1) as Hv1.
  pose proof (digits_value_nonneg g2 Hd2) as Hv2.
  assert (Hneg : forall z, 0 <= z -> num_lt (round (inject_Z z)) (int 0) = false).
  { intros z Hz. unfold round.
    assert (Hq : (0 <= inject_Z z)%Q)
      by (change 0%Q with (inject_Z 0); rewrite <- Zle_Qle; exact Hz).
    destruct (Qcompare_spec (inject_Z z) 0) as [F | F | F]; try lra.
    - reflexivity.
    - rewrite round_mag_unfold.
      destruct (Qle_bool (pow2 (emax + 1)) (rounded (inject_Z z))); [reflexivity|].
      pose proof (rounded_nonneg _ F) as Hr.
      pose proof (Qred_correct (rounded (inject_Z z))) as Hred.
      unfold num_lt, int.
      destruct (Qcompare_spec (Qred (rounded (inject_Z z))) (inject_Z 0)) as [G | G | G];
        try reflexivity. change (inject_Z 0) with 0%Q in G. lra. }
  exists g1, g2. unfold Number_of_digits.
  repeat split; auto using round_not_NaN.
Qed.

Lemma parseBucket_bounds_witness :
  exists g1 g2 : jsstring,
    g1 <> [] /\ g2 <> [] /\
    forallb is_digit g1 = true /\ forallb is_digit g2 = true /\
    min (mkRange (int 7) (int 125)) = Number_of_digits g1 /\
    max (mkRange (int 7) (int 125)) = Number_of_digits g2 /\
    0 <= digits_value g1 /\ 0 <= digits_value g2 /\
    num_lt (min (mkRange (int 7) (int 125))) (int 0) = false /\
    num_lt (max (mkRange (int 7) (int 125))) (int 0) = false /\
    min (mkRange (int 7) (int 125)) <> NaN /\ max (mkRange (int 7) (int 125)) <> NaN.
Proof.
  apply (parseBucket_bounds (str "ab$$12-x $007-0125z")). vm_compute. reflexivity.
Defined.

(** ** Printing a natural number and reading it back *)

Lemma digits_value_app ds d :
  digits_value (ds ++ [d]) = 10 * digits_value ds + (d - 48).
Proof. unfold digits_value. rewrite fold_left_app. reflexivity. Qed.

Lemma digits_of_fuel_acc fuel n acc :
  digits_of_fuel fuel n acc = (digits_of_fuel fuel n [] ++ acc)%list.
Proof.
  revert n acc. induction fuel as [|fuel IH]; intros n acc; cbn [digits_of_fuel].
  - reflexivity.
  - cbv zeta. destruct (n / 10 =? 0); [reflexivity|].
    rewrite (IH (n / 10) ((48 + n mod 10) :: acc)).
    rewrite (IH (n / 10) [48 + n mod 10]).
    rewrite <- app_assoc. reflexivity.
Qed.

Lemma digits_of_fuel_spec fuel n :
  (0 < fuel)%nat -> 0 <= n < 2 ^ Z.of_nat fuel ->
  digits_of_fuel fuel n [] <> [] /\
  forallb is_digit (digits_of_fuel fuel n []) = true /\
  digits_value (digits_of_fuel fuel n []) = n.
Proof.
  revert n. induction fuel as [|fuel IH]; intros n Hf Hn.
  - lia.
  - cbn [digits_of_fuel]. cbv zeta.
    assert (Hd : is_digit (48 + n mod 10) = true).
    { unfold is_digit. pose proof (Z.mod_pos_bound n 10 ltac:(lia)).
      apply andb_true_intro. split; apply Z.leb_le; lia. }
    destruct (Z.eqb_spec (n / 10) 0) as [E | E].
    + split; [discriminate|]. split; [cbn [forallb]; rewrite Hd; reflexivity|].
      unfold digits_value. cbn [fold_left].
      pose proof (Z.div_mod n 10 ltac:(lia)). lia.
    + rewrite digits_of_fuel_acc.
      rewrite Nat2Z.inj_succ, Z.pow_succ_r in Hn by lia.
      assert (H10 : 10 <= n).
      { destruct (Z.le_gt_cases 10 n) as [H | H]; [exact H|].
        exfalso. apply E. apply Z.div_small. lia. }
      assert (Hf' : (0 < fuel)%nat).
      { destruct fuel; [|lia]. change (2 ^ Z.of_nat 0) with 1 in Hn. lia. }
      assert (Hn' : 0 <= n / 10 < 2 ^ Z.of_nat fuel).
      { split; [apply Z.div_pos; lia|].
        apply Z.div_lt_upper_bound; lia. }
      destruct (IH (n / 10) Hf' Hn') as (Hne & Hds & Hv).
      split; [|split].
      * intros H. apply app_eq_nil in H. destruct H as [_ H]. discriminate H.
      * rewrite forallb_app, Hds. cbn [forallb]. rewrite Hd. reflexivity.
      * rewrite digits_value_app, Hv. pose proof (Z.div_mod n 10 ltac:(lia)). lia.
Qed.

Lemma digits_of_spec n :
  0 <= n ->
  digits_of n <> [] /\ forallb is_digit (digits_of n) = true /\
  digits_value (digits_of n) = n.
Proof.
  intros Hn. unfold digits_of. apply digits_of_fuel_spec; [lia|]. split; [exact Hn|].
  destruct (Z.eq_dec n 0) as [-> | Hne]; [reflexivity|].
  rewrite Nat2Z.inj_succ, Z2Nat.id by apply Z.log2_nonneg.
  apply Z.log2_spec. lia.
Qed.

Lemma ToString_int n : 0 <= n -> ToString (int n) = digits_of n.
Proof.
  intros Hn. unfold ToString, int. rewrite trunc_Z.
  destruct (Z.ltb_spec n 0); [lia | reflexivity].
Qed.

(** A label built from two natural numbers parses back to them. *)
Lemma bucket_label_parses (a b : Z) :
  0 <= a < 2 ^ 53 -> 0 <= b < 2 ^ 53 ->
  parseBucket (bucket_label (int a) (int b)) = Some (mkRange (int a) (int b)).
Proof.
  intros Ha Hb. unfold bucket_label. rewrite !ToString_int by lia.
  destruct (digits_of_spec a ltac:(lia)) as (Hna & Hda & Hva).
  destruct (digits_of_spec b ltac:(lia)) as (Hnb & Hdb & Hvb).
  rewrite parseBucket_wellformed; try assumption; [|reflexivity].
  unfold Number_of_digits. rewrite Hva, Hvb.
  rewrite !round_Z by lia. reflexivity.
Qed.

(** ** The labels of the histogram *)

Lemma buildBucketLabels_loop_spec (step max : Z) :
  1 <= step -> 0 <= max -> max + step < 2 ^ 53 ->
  forall (fuel k : nat) (labels : list jsstring),
    Z.max 0 (max - Z.of_nat k * step) < Z.of_nat fuel ->
    Z.of_nat k * step < max + step ->
    exists n : nat,
      buildBucketLabels_loop fuel (int (Z.of_nat k * step)) (int step) (int max) labels
      = Some (labels ++
              map (fun i => bucket_label (int (Z.of_nat i * step))
                                         (int ((Z.of_nat i + 1) * step)))
                  (seq k n)) /\
      max <= Z.of_nat (k + n) * step /\ Z.of_nat (k + n) * step < max + step.
Proof.
  intros Hstep Hmax Hsmall. induction fuel as [|fuel IH]; intros k labels Hfuel Hk.
  - lia.
  - cbn [buildBucketLabels_loop]. rewrite num_lt_int.
    destruct (Z.ltb_spec (Z.of_nat k * step) max) as [Hlt | Hge].
    + cbv zeta. rewrite fadd_int by (apply small_below; nia).
      replace (Z.of_nat k * step + step) with (Z.of_nat (S k) * step) by lia.
      destruct (IH (S k) (labels ++ [bucket_label (int (Z.of_nat k * step))
                                       (int (Z.of_nat (S k) * step))]))
        as (n & E & H1 & H2); [lia | lia |].
      exists (S n). rewrite E. split; [|split].
      * f_equal. rewrite <- app_assoc. cbn [app seq map]. do 3 f_equal.
        f_equal. lia.
      * replace (k + S n)%nat with (S k + n)%nat by lia. exact H1.
      * replace (k + S n)%nat with (S k + n)%nat by lia. exact H2.
    + exists 0%nat. cbn [seq map]. rewrite app_nil_r, Nat.add_0_r.
      split; [reflexivity|]. split; lia.
Qed.

(** For a step of at least 1 (and bounds a double holds exactly),
    [buildBucketLabels] ends and returns the labels of consecutive ranges
    [i*step .. (i+1)*step] that start at 0 and stop with the first range that
    reaches [max]: no gap, no overlap, none missing.  Each label parses back,
    with [parseBucket], to the range it was built from. *)
Theorem buildBucketLabels_partition :
  forall (step max : Z) (fuel : nat),
    1 <= step -> 0 <= max -> max + step < 2 ^ 53 -> max < Z.of_nat fuel ->
    exists n : nat,
      buildBucketLabels fuel (int step) (int max)
      = Some (map (fun i => bucket_label (int (Z.of_nat i * step))
                                         (int ((Z.of_nat i + 1) * step)))
                  (seq 0 n)) /\
      max <= Z.of_nat n * step < max + step /\
      forall i : nat,
        (i < n)%nat ->
        parseBucket (bucket_label (int (Z.of_nat i * step))
                                  (int ((Z.of_nat i + 1) * step)))
        = Some (mkRange (int (Z.of_nat i * step)) (int ((Z.of_nat i + 1) * step))).
Proof.
  intros step max fuel Hstep Hmax Hsmall Hfuel.
  destruct (buildBucketLabels_loop_spec step max Hstep Hmax Hsmall fuel 0 [])
    as (n & E & H1 & H2); [lia | lia |].
  exists n. unfold buildBucketLabels. change (int 0) with (int (Z.of_nat 0 * step)).
  rewrite E. cbn [app Nat.add] in *. split; [reflexivity|]. split; [lia|].
  intros i Hi. apply bucket_label_parses; nia.
Qed.

Lemma buildBucketLabels_partition_witness :
  exists n : nat,
    buildBucketLabels 1001 (int 20) (int 1000)
    = Some (map (fun i => bucket_label (int (Z.of_nat i * 20))
                                       (int ((Z.of_nat i + 1) * 20)))
                (seq 0 n)) /\
    1000 <= Z.of_nat n * 20 < 1000 + 20 /\
    forall i : nat,
      (i < n)%nat ->
      parseBucket (bucket_label (int (Z.of_nat i * 20)) (int ((Z.of_nat i + 1) * 20)))
      = Some (mkRange (int (Z.of_nat i * 20)) (int ((Z.of_nat i + 1) * 20))).
Proof.
  apply (buildBucketLabels_partition 20 1000 1001); lia.
Defined.

(** ** The theme switch *)

Import ThemeToggle.

Lemma getPreferredTheme_setItem st t :
  getItem_throws st = false -> setItem_throws st = false ->
  getPreferredTheme (setItem st (theme_name t)) = t.
Proof.
  intros Hg Hs. unfold setItem. rewrite Hs. unfold getPreferredTheme.
  cbn [getItem_throws item]. rewrite Hg. destruct t; reflexivity.
Qed.

Lemma clicks_storage_flags k s :
  getItem_throws (storage (clicks k s)) = getItem_throws (storage s) /\
  setItem_throws (storage (clicks k s)) = setItem_throws (storage s).
Proof.
  induction k as [|k [IHg IHs]]; cbn [clicks]; [split; reflexivity|].
  cbn [toggleTheme storage]. unfold setItem.
  destruct (setItem_throws (storage (clicks k s))) eqn:E.
  - split; [exact IHg | congruence].
  - cbn [getItem_throws setItem_throws]. split; [exact IHg | congruence].
Qed.

Lemma toggleTheme_persists s :
  getItem_throws (storage s) = false -> setItem_throws (storage s) = false ->
  getPreferredTheme (storage (toggleTheme s)) = theme (toggleTheme s).
Proof.
  intros Hg Hs. cbn [toggleTheme storage theme].
  apply getPreferredTheme_setItem; assumption.
Qed.

(** After the mount effect and after every click the [dark] class of the
    root element mirrors the theme, and two clicks give back the theme.
    With a [localStorage] that neither read nor write raises on, a click
    persists its theme, so that the next mount starts from it.  When the
    read raises, or the stored value is not ["light"], a mount starts
    dark. *)
Theorem theme_toggle_consistent :
  forall (st : Storage) (root_has_dark : bool) (n : nat),
    let s := clicks n (mount (initial st root_has_dark)) in
    dark_class s = is_dark (theme s) /\
    theme (toggleTheme (toggleTheme s)) = theme s /\
    (getItem_throws st = false -> setItem_throws st = false ->
     theme (mount (initial (storage (toggleTheme s)) (dark_class (toggleTheme s))))
     = theme (toggleTheme s)) /\
    (getItem_throws st = true -> theme (mount (initial st root_has_dark)) = dark) /\
    (item st <> Some (str "light") -> theme (mount (initial st root_has_dark)) = dark).
Proof.
  intros st root n s. split; [|split; [|split; [|split]]].
  - subst s. destruct n as [|n]; reflexivity.
  - cbn [toggleTheme theme]. destruct (theme s); reflexivity.
  - intros Hg Hs. cbn [mount initial storage theme].
    destruct (clicks_storage_flags n (mount (initial st root))) as [Fg Fs].
    apply toggleTheme_persists.
    + fold s in Fg. rewrite Fg. exact Hg.
    + fold s in Fs. rewrite Fs. exact Hs.
  - intros H. cbn [mount initial storage theme]. unfold getPreferredTheme. rewrite H.
    reflexivity.
  - intros H. cbn [mount initial storage theme]. unfold getPreferredTheme.
    destruct (getItem_throws st); [reflexivity|]. destruct (item st) as [v|]; [|reflexivity].
    unfold jsstring_eqb. destruct (list_eq_dec Z.eq_dec v (str "light")) as [-> | _].
    + contradiction H. reflexivity.
    + destruct (list_eq_dec Z.eq_dec v (str "dark")); reflexivity.
Qed.

Lemma theme_toggle_consistent_witness :
  theme (mount (initial
                  (storage (toggleTheme (clicks 2 (mount (initial (mkStorage false false None) false)))))
                  (dark_class (toggleTheme (clicks 2 (mount (initial (mkStorage false false None) false)))))))
  = theme (toggleTheme (clicks 2 (mount (initial (mkStorage false false None) false)))).
Proof.
  pose proof (theme_toggle_consistent (mkStorage false false None) false 2) as (_ & _ & H & _).
  apply H; reflexivity.
Defined.

(** ** A label whose numbers overflow *)

Lemma round_nonneg_cases q : (0 <= q)%Q -> round q = PInf \/ exists r, round q = Fin r.
Proof.
  intros Hq. unfold round. destruct (Qcompare_spec q 0) as [E | E | E].
  - right. eexists. reflexivity.
  - lra.
  - destruct (round_mag q) as [r|]; [right; eexists; reflexivity | left; reflexivity].
Qed.

Lemma spend_not_finite mn mx (u : Q) :
  (0 <= u)%Q ->
  (mn = PInf /\ (mx = PInf \/ exists b, mx = Fin b)) \/
  ((exists a, mn = Fin a) /\ mx = PInf) ->
  isFinite (Number_of_numeral (toFixed (fadd mn (fmul (Fin u) (fsub mx mn))) 2)) = false.
Proof.
  intros Hu H.
  assert (Hs : sign (Fin u) = Some Gt \/ sign (Fin u) = Some Eq).
  { cbn [sign]. destruct (Qcompare_spec u 0) as [E | E | E]; [right | lra | left]; reflexivity. }
  destruct H as [(-> & [-> | (b & ->)]) | ((a & ->) & ->)].
  - change (fsub PInf PInf) with NaN. unfold fmul.
    destruct Hs as [-> | ->]; reflexivity.
  - change (fsub (Fin b) PInf) with NInf. unfold fmul.
    destruct Hs as [-> | ->]; reflexivity.
  - change (fsub PInf (Fin a)) with PInf. unfold fmul.
    destruct Hs as [-> | ->]; reflexivity.
Qed.

(** When a number of the label is too long for a double, the bound reads
    as [Infinity], and then no spend of the drill-down is a finite amount:
    each is [Infinity] or NaN. *)
Theorem generateUsersForBucket_unbounded_range :
  forall (label : jsstring) (range : Range) (totalUsers : number) (w : random_source),
    parseBucket label = Some range ->
    isFinite (min range) = false \/ isFinite (max range) = false ->
    (forall k, unit_draw (draws w k)) ->
    Forall (fun usr => isFinite (spend usr) = false)
           (fst (generateUsersForBucket label totalUsers w)).
Proof.
  intros label range totalUsers w Hparse Hinf Hw.
  destruct (parseBucket_digits label range Hparse) as (g1 & g2 & _ & _ & Hd1 & Hd2 & Hr).
  unfold generateUsersForBucket. rewrite Hparse.
  destruct (users_loop_generated loop_bound 0
              (Math_min (int 50) (Math_max (int 1) totalUsers))
              (min range) (max range) [] w) as (generated & Egen & Hgen).
  cbn [app] in Egen.
  destruct (users_loop loop_bound 0 _ (min range) (max range) [] w) as [users w'].
  cbn [fst] in *. subst users. apply Array_sort_Forall.
  apply Forall_forall. intros usr Hin.
  destruct (In_nth_error _ _ Hin) as (j & Hj). rewrite (Hgen j usr Hj).
  destruct (Hw (cursor w + 2 * j)%nat) as (u & -> & _ & Hu0 & _).
  apply spend_not_finite; [exact Hu0|].
  subst range. cbn [min max] in *. unfold Number_of_digits in *.
  assert (H1 : (0 <= inject_Z (digits_value g1))%Q).
  { change 0%Q with (inject_Z 0). rewrite <- Zle_Qle. apply digits_value_nonneg, Hd1. }
  assert (H2 : (0 <= inject_Z (digits_value g2))%Q).
  { change 0%Q with (inject_Z 0). rewrite <- Zle_Qle. apply digits_value_nonneg, Hd2. }
  destruct (round_nonneg_cases _ H1) as [E1 | (a & E1)];
    destruct (round_nonneg_cases _ H2) as [E2 | (b & E2)];
    rewrite E1, E2 in *.
  - left. split; [reflexivity | left; reflexivity].
  - left. split; [reflexivity | right; exists b; reflexivity].
  - right. split; [exists a; reflexivity | reflexivity].
  - destruct Hinf as [H | H]; discriminate H.
Qed.

Lemma generateUsersForBucket_unbounded_range_witness :
  Forall (fun usr => isFinite (spend usr) = false)
    (fst (generateUsersForBucket (dollar :: repeat 57 400 ++ hyphen :: [53])
            (int 2) (mkSource (fun _ => lit 0.5) 0))).
Proof.
  apply (generateUsersForBucket_unbounded_range
           (dollar :: repeat 57 400 ++ hyphen :: [53]) (mkRange Infinity (int 5))).
  - vm_compute. reflexivity.
  - left. reflexivity.
  - intros k. cbn [draws]. exists (1 # 2)%Q. split; [vm_compute; reflexivity|]. split.
    + exists 1, (-1). split; [lia|]. split; [lia|]. vm_compute. reflexivity.
    + split; [vm_compute; intro H; discriminate H | reflexivity].
Defined.
